(** * estnltk.mw_verbs.utils: word indexing, clause grouping and WordTemplate

    A shallow embedding of [src/estnltk/mw_verbs/utils.py].

    - Word tokens are Python dicts: finite maps from field names to values.
      Sentences are Python lists of references to such dicts.  The indexing
      functions write into the dicts they are handed, so they run over an
      explicit object store and a sentence is a list of locations; two
      positions of a sentence may hold the same location.  [WordTemplate]
      only reads the tokens it is given: its queries take the dicts
      themselves.
    - Exceptions are results: every function returns [Ok v] or [Raise e];
      the store-passing functions also return the store they leave behind,
      on either outcome.
    - The [re] module is outside the repository: compiled patterns are an
      abstract type with a compile function and a prefix-match predicate
      ([re.compile], [pattern.match(s) != None]). *)

From stdpp Require Import base option list sorting gmap strings.
From Stdlib Require Import ZArith Lia.

Local Open Scope Z_scope.
Local Open Scope nat_scope.
Local Open Scope string_scope.
Local Open Scope list_scope.

(** ** Values, tokens, exceptions *)

(** The values a token field holds: a string (['text'], ...), an integer
    (['wordID'], ['clauseID']), or the list of morphological analyses
    (['analysis']).  An analysis is a dict of string-valued fields; its
    ['root_tokens'] entry is never read by this module and is left out.
    A token is a [gmap string value], an analysis a [gmap string string]. *)
Inductive value : Type :=
  | VStr (s : string)
  | VInt (n : Z)
  | VList (l : list (gmap string string)).

#[global] Instance value_eq_dec : EqDecision value.
Proof. solve_decision. Defined.

Inductive exn : Type :=
  | AssertionError   (* a failed [assert] *)
  | KeyError         (* [d[k]] or [del d[k]] on a missing key *)
  | TypeError        (* an operation applied to a value of the wrong type *)
  | ReError          (* [re.compile] on an invalid pattern *)
  | DanglingRef.     (* a location outside the store; Python has none *)

Inductive result (A : Type) : Type :=
  | Ok (a : A)
  | Raise (e : exn).
Arguments Ok {A} a.
Arguments Raise {A} e.

#[global] Instance result_ret : MRet result := λ A a, Ok a.
#[global] Instance result_bind : MBind result := λ A B f m,
  match m with
  | Ok a => f a
  | Raise e => Raise e
  end.

(** [o == None] *)
Definition is_None {A : Type} (o : option A) : bool :=
  match o with
  | None => true
  | Some _ => false
  end.

(** Python's [all] and [any] on a list of booleans. *)
Definition all (l : list bool) : bool := forallb id l.
Definition any (l : list bool) : bool := existsb id l.

(** [for x in l: acc = body(acc, x)], stopping at the first exception. *)
Fixpoint for_each `{MBind M, MRet M} {A S : Type}
    (body : S → A → M S) (acc : S) (l : list A) : M S :=
  match l with
  | [] => mret acc
  | x :: l' => acc' ← body acc x; for_each body acc' l'
  end.

(** The pairs [(i, l[i])] for [i in range(len(l))], as
    [zip(range(k, k + len(l)), l)] with [k = 0]. *)
Definition enumerate_from {A : Type} (k : nat) (l : list A) : list (nat * A) :=
  zip (seq k (length l)) l.
Definition enumerate {A : Type} (l : list A) : list (nat * A) :=
  enumerate_from 0 l.

(** An insertion-ordered dict as the list of its items: [d[k] = v]
    overwrites in place when [k] is present and appends otherwise. *)
Fixpoint dict_set `{EqDecision K} {V : Type} (d : list (K * V)) (k : K) (v : V)
  : list (K * V) :=
  match d with
  | [] => [(k, v)]
  | (k', v') :: d' =>
      if decide (k' = k) then (k, v) :: d' else (k', v') :: dict_set d' k v
  end.

(** [d.get(k)] *)
Fixpoint dict_get `{EqDecision K} {V : Type} (d : list (K * V)) (k : K)
  : option V :=
  match d with
  | [] => None
  | (k', v') :: d' => if decide (k' = k) then Some v' else dict_get d' k
  end.

(** ** WordTemplate *)

Definition analysisFields : list string :=
  ["root"; "partofspeech"; "ending"; "form"; "clitic"; "lemma"].

(** What [for analysis in tokenJson["analysis"]] ranges over: the dicts of a
    list, or the one-character strings of a string. *)
Inductive entry : Type :=
  | EDict (a : gmap string string)
  | EChar (c : Ascii.ascii).

#[global] Instance entry_eq_dec : EqDecision entry.
Proof. solve_decision. Defined.

Definition iterate (v : value) : result (list entry) :=
  match v with
  | VList l => Ok (EDict <$> l)
  | VStr s => Ok (EChar <$> String.list_ascii_of_string s)
  | VInt _ => Raise TypeError
  end.

(** [analysis[field] if field in analysis else ""].  On a one-character
    string [field in analysis] is the substring test, and indexing a string
    by a string raises. *)
Definition entry_value (analysis : entry) (field : string) : result string :=
  match analysis with
  | EDict a => Ok (default "" (a !! field))
  | EChar c =>
      if bool_decide (field = "" ∨ field = String c "") then Raise TypeError
      else Ok ""
  end.

Section WordTemplate.

Context {Pattern : Type}.
(** [re.compile]: [None] when the pattern is not a valid regular expression. *)
Variable re_compile : string → option Pattern.
(** [compiled.match(s) != None]: the pattern matches a prefix of [s]. *)
Variable re_match : Pattern → string → bool.

(** The two rule dicts of a template; [None] is the class-level default. *)
Record WordTemplate : Type := mkWordTemplate {
  analysisRules : option (list (string * Pattern));
  otherRules : option (list (string * Pattern));
}.

Definition addRule (self : WordTemplate) (field regExpPattern : string)
  : result WordTemplate :=
  match re_compile regExpPattern with
  | None => Raise ReError
  | Some compiled =>
      if bool_decide (field ∈ analysisFields) then
        Ok {| analysisRules :=
                Some (dict_set (default [] (analysisRules self)) field compiled);
              otherRules := otherRules self |}
      else
        Ok {| analysisRules := analysisRules self;
              otherRules :=
                Some (dict_set (default [] (otherRules self)) field compiled) |}
  end.

(** [WordTemplate(newRules)]: [newRules] is a dict from field to pattern
    source, given in its iteration order. *)
Definition WordTemplate_init (newRules : list (string * string))
  : result WordTemplate :=
  for_each (λ self rule, addRule self rule.1 rule.2)
           {| analysisRules := None; otherRules := None |} newRules.

(** The templates a caller can hold: built by the constructor and extended
    by [addRule]. *)
Inductive reachable : WordTemplate → Prop :=
  | reachable_new :
      reachable {| analysisRules := None; otherRules := None |}
  | reachable_addRule self field regExpPattern self' :
      reachable self →
      addRule self field regExpPattern = Ok self' →
      reachable self'.

(** [field in tokenJson and otherRules[field].match(tokenJson[field]) != None] *)
Definition other_match (tokenJson : gmap string value) (rule : string * Pattern)
  : result bool :=
  match tokenJson !! rule.1 with
  | None => Ok false
  | Some (VStr s) => Ok (re_match rule.2 s)
  | Some _ => Raise TypeError
  end.

(** The inner loop of [matches]: the list [matches], cut at the first rule
    that does not match. *)
Fixpoint rule_matches_break (rules : list (string * Pattern)) (analysis : entry)
  : result (list bool) :=
  match rules with
  | [] => Ok []
  | (field, pat) :: rules' =>
      value ← entry_value analysis field;
      let match_ := re_match pat value in
      if match_ then ms ← rule_matches_break rules' analysis; Ok (match_ :: ms)
      else Ok [match_]
  end.

(** The inner loop of [matchingAnalyses]: no [break]. *)
Definition rule_matches_all (rules : list (string * Pattern)) (analysis : entry)
  : result (list bool) :=
  mapM (λ rule, value ← entry_value analysis rule.1;
                Ok (re_match rule.2 value)) rules.

(** [self.matches(tokenJson)].  The token-scoped block either returns
    early ([Some b]) or falls through ([None]) to the analysis block. *)
Definition matches (self : WordTemplate) (tokenJson : gmap string value)
  : result bool :=
  early ←
    match otherRules self with
    | Some rules =>
        otherMatches ← mapM (other_match tokenJson) rules;
        if bool_decide (otherMatches = []) || negb (all otherMatches) then
          Ok (Some false)
        else if is_None (analysisRules self) && all otherMatches then
          Ok (Some true)
        else Ok None
    | None => Ok None
    end;
  match early with
  | Some b => Ok b
  | None =>
      match analysisRules self with
      | Some rules =>
          match tokenJson !! "analysis" with
          | None => Raise AssertionError
          | Some v =>
              entries ← iterate v;
              totalMatches ←
                mapM (λ analysis, ms ← rule_matches_break rules analysis;
                                  Ok (all ms)) entries;
              Ok (any totalMatches)
          end
      | None => Ok false
      end
  end.

(** [self.matchingAnalyses(tokenJson)] *)
Definition matchingAnalyses (self : WordTemplate) (tokenJson : gmap string value)
  : result (list entry) :=
  early ←
    match otherRules self with
    | Some rules =>
        otherMatches ← mapM (other_match tokenJson) rules;
        Ok (bool_decide (otherMatches = []) || negb (all otherMatches))
    | None => Ok false
    end;
  if early : bool then Ok []
  else
    match analysisRules self with
    | Some rules =>
        match tokenJson !! "analysis" with
        | None => Raise AssertionError
        | Some v =>
            entries ← iterate v;
            for_each (λ matchingResults analysis,
                        ms ← rule_matches_all rules analysis;
                        if negb (bool_decide (ms = [])) && all ms
                        then Ok (matchingResults ++ [analysis])
                        else Ok matchingResults)
                     [] entries
        end
    | None => Ok []
    end.

(** [self.matchingPositions(tokenArray)] *)
Definition matchingPositions (self : WordTemplate)
    (tokenArray : list (gmap string value)) : result (list nat) :=
  for_each (λ matchingPos it,
              m ← matches self it.2;
              if m : bool then Ok (matchingPos ++ [it.1]) else Ok matchingPos)
           [] (enumerate tokenArray).

(** [self.matchingTokens(tokenArray)] *)
Definition matchingTokens (self : WordTemplate)
    (tokenArray : list (gmap string value)) : result (list (gmap string value)) :=
  for_each (λ matchingTok it,
              m ← matches self it.2;
              if m : bool then Ok (matchingTok ++ [it.2]) else Ok matchingTok)
           [] (enumerate tokenArray).

(** [l.index(x)]: the position of the first element equal to [x]; [None]
    when there is none (Python raises). *)
Fixpoint index_of `{EqDecision A} (l : list A) (x : A) : option nat :=
  match l with
  | [] => None
  | y :: l' => if decide (y = x) then Some 0 else S <$> index_of l' x
  end.

(** What [matchingAnalyseIndexes] does: return a list of indexes, raise
    what [matchingAnalyses] raised, or raise out of the expression
    [tokenJson["analysis"].index(analysis)]. *)
Inductive index_outcome : Type :=
  | IndexOk (indexes : list nat)
  | IndexRaise (e : exn)
  | IndexLookupRaise.

(** [tokenJson["analysis"].index(analysis)]: on a list, the first equal
    element; on a string, the first occurrence of the character. *)
Definition analysis_index (tokenJson : gmap string value) (analysis : entry)
  : option nat :=
  match tokenJson !! "analysis" with
  | Some v =>
      match iterate v with
      | Ok entries => index_of entries analysis
      | Raise _ => None
      end
  | None => None
  end.

(** [self.matchingAnalyseIndexes(tokenJson)] *)
Definition matchingAnalyseIndexes (self : WordTemplate)
    (tokenJson : gmap string value) : index_outcome :=
  match matchingAnalyses self tokenJson with
  | Raise e => IndexRaise e
  | Ok matchingResults =>
      if bool_decide (matchingResults = []) then IndexOk []
      else
        match mapM (analysis_index tokenJson) matchingResults with
        | Some indexes => IndexOk indexes
        | None => IndexLookupRaise
        end
  end.

(** *** Vocabulary of the matching laws *)

(** The rule registered for a field: looked up in the partition the field
    is routed to. *)
Definition get_rule (self : WordTemplate) (field : string) : option Pattern :=
  if bool_decide (field ∈ analysisFields)
  then dict_get (default [] (analysisRules self)) field
  else dict_get (default [] (otherRules self)) field.

(** A token-scoped rule passes: its field is on the token, holds a string,
    and the pattern matches a prefix of it. *)
Definition rule_passes (tokenJson : gmap string value) (rule : string * Pattern)
  : Prop :=
  ∃ s, tokenJson !! rule.1 = Some (VStr s) ∧ re_match rule.2 s = true.

(** A token-scoped rule fails: its field is absent from the token, or holds
    a string no prefix of which the pattern matches. *)
Definition rule_fails (tokenJson : gmap string value) (rule : string * Pattern)
  : Prop :=
  tokenJson !! rule.1 = None ∨
  ∃ s, tokenJson !! rule.1 = Some (VStr s) ∧ re_match rule.2 s = false.

(** The field a rule addresses is absent from the token or holds a string. *)
Definition rule_on_string (tokenJson : gmap string value)
    (rule : string * Pattern) : Prop :=
  tokenJson !! rule.1 = None ∨ ∃ s, tokenJson !! rule.1 = Some (VStr s).

(** An analysis satisfies every analysis-scoped rule, a missing field being
    matched as the empty string. *)
Definition analysis_satisfies (rules : list (string * Pattern))
    (a : gmap string string) : Prop :=
  ∀ rule, rule ∈ rules → re_match rule.2 (default "" (a !! rule.1)) = true.

#[global] Instance analysis_satisfies_dec rules a :
  Decision (analysis_satisfies rules a).
Proof.
  refine (cast_if (decide (Forall
    (λ rule, re_match rule.2 (default "" (a !! rule.1)) = true) rules)));
    unfold analysis_satisfies; by rewrite <-Forall_forall.
Defined.

(** A rule partition holds no rule. *)
Definition holds_no_rule (rules : option (list (string * Pattern))) : Prop :=
  default [] rules = [].

End WordTemplate.

Arguments WordTemplate Pattern : clear implicits.

(** A concrete [re] for running the definitions: patterns made of letters
    and digits only, which [re] matches literally, as a prefix. *)
Definition is_alnum (c : Ascii.ascii) : bool :=
  let n := Ascii.nat_of_ascii c in
  ((48 <=? n)%nat && (n <=? 57)%nat) || ((65 <=? n)%nat && (n <=? 90)%nat)
  || ((97 <=? n)%nat && (n <=? 122)%nat).

Definition lit_compile (p : string) : option string :=
  if forallb is_alnum (String.list_ascii_of_string p) then Some p else None.

Definition lit_match (p s : string) : bool := String.prefix p s.

(** ** The object store *)

(** Dict objects live in a store; a sentence is a list of locations. *)
Definition M (A : Type) : Type :=
  gmap nat (gmap string value) → result A * gmap nat (gmap string value).

#[global] Instance M_ret : MRet M := λ A a h, (Ok a, h).
#[global] Instance M_bind : MBind M := λ A B f m h,
  match m h with
  | (Ok a, h') => f a h'
  | (Raise e, h') => (Raise e, h')
  end.

Definition raise {A : Type} (e : exn) : M A := λ h, (Raise e, h).

(** [assert c] *)
Definition assert_ (c : bool) : M unit :=
  if c then mret tt else raise AssertionError.

(** [k in o] for the dict object at [o] *)
Definition contains (o : nat) (k : string) : M bool := λ h,
  match h !! o with
  | Some d => (Ok (bool_decide (is_Some (d !! k))), h)
  | None => (Raise DanglingRef, h)
  end.

(** [o[k]] *)
Definition getitem (o : nat) (k : string) : M value := λ h,
  match h !! o with
  | Some d =>
      match d !! k with
      | Some v => (Ok v, h)
      | None => (Raise KeyError, h)
      end
  | None => (Raise DanglingRef, h)
  end.

(** [o[k] = v] *)
Definition setitem (o : nat) (k : string) (v : value) : M unit := λ h,
  match h !! o with
  | Some d => (Ok tt, <[o := <[k := v]> d]> h)
  | None => (Raise DanglingRef, h)
  end.

(** [del o[k]] *)
Definition delitem (o : nat) (k : string) : M unit := λ h,
  match h !! o with
  | Some d =>
      match d !! k with
      | Some _ => (Ok tt, <[o := delete k d]> h)
      | None => (Raise KeyError, h)
      end
  | None => (Raise DanglingRef, h)
  end.

(** ** Indexing word tokens *)

(** The body of the loop of [addWordIDs] at index [i], where [tok] is the
    object [jsonSent[i]]. *)
Definition addWordIDs_step (i : nat) (tok : nat) : M unit :=
  has ← contains tok "wordID";
  (if has : bool then
     w ← getitem tok "wordID";
     assert_ (bool_decide (w = VInt (Z.of_nat i)))
   else mret tt);;
  setitem tok "wordID" (VInt (Z.of_nat i)).

Definition addWordIDs (jsonSent : list nat) : M (list nat) :=
  for_each (λ (_ : unit) it, addWordIDs_step it.1 it.2) tt (enumerate jsonSent);;
  mret jsonSent.

Definition removeWordIDs (jsonSent : list nat) : M (list nat) :=
  for_each (λ (_ : unit) it, delitem it.2 "wordID") tt (enumerate jsonSent);;
  mret jsonSent.

(** [a <= w and w < b] for integers [a], [b]; comparing an integer with a
    string or a list raises. *)
Definition in_range (a b : Z) (w : value) : M bool :=
  match w with
  | VInt n => mret ((a <=? n)%Z && (n <? b)%Z)
  | _ => raise TypeError
  end.

Definition getWordIDrange (a b : Z) (jsonSent : list nat) : M (list nat) :=
  for_each (λ tokens it,
              has ← contains it.2 "wordID";
              assert_ has;;
              w ← getitem it.2 "wordID";
              c ← in_range a b w;
              if c : bool then mret (tokens ++ [it.2]) else mret tokens)
           [] (enumerate jsonSent).

(** ** Separating a sentence into clauses *)

(** Dict keys must be hashable: strings and integers are, lists are not. *)
Definition hashable (v : value) : bool :=
  match v with
  | VStr _ | VInt _ => true
  | VList _ => false
  end.

(** [if clauseId not in clauses: clauses[clauseId] = []]
    [clauses[clauseId].append(tokenJson)] *)
Definition clauses_append `{EqDecision K} {A : Type} (clauses : list (K * list A))
    (clauseId : K) (tokenJson : A) : list (K * list A) :=
  let clauses :=
    match dict_get clauses clauseId with
    | None => dict_set clauses clauseId []
    | Some _ => clauses
    end in
  dict_set clauses clauseId (default [] (dict_get clauses clauseId) ++ [tokenJson]).

Definition getClausesByClauseIDs (jsonSent : list nat)
  : M (list (value * list nat)) :=
  for_each (λ (_ : unit) tokenStruct,
              has ← contains tokenStruct "clauseID"; assert_ has)
           tt jsonSent;;
  clauseIDs ← mapM (λ tokenStruct, getitem tokenStruct "clauseID") jsonSent;
  for_each (λ clauses it,
              clauseId ← getitem it.2 "clauseID";
              (if hashable clauseId then mret tt else raise TypeError);;
              mret (clauses_append clauses clauseId it.2))
           [] (enumerate jsonSent).

(** *** Vocabulary of the indexing and grouping laws *)

(** The value of field [k] of the token at [o]; [None] when the token has
    no such field (or [o] is outside the store). *)
Definition field_of (h : gmap nat (gmap string value)) (k : string) (o : nat)
  : option value :=
  d ← h !! o; d !! k.

(** The token at [o] exists and has no field [k]. *)
Definition lacks (h : gmap nat (gmap string value)) (k : string) (o : nat)
  : Prop :=
  ∃ d, h !! o = Some d ∧ d !! k = None.

(** The token at [o] carries an integer ['wordID'] within [a <= . < b]. *)
Definition wordID_in (a b : Z) (h : gmap nat (gmap string value)) (o : nat)
  : Prop :=
  match field_of h "wordID" o with
  | Some (VInt n) => (a ≤ n < b)%Z
  | _ => False
  end.

#[global] Instance wordID_in_dec a b h o : Decision (wordID_in a b h o).
Proof.
  unfold wordID_in. destruct (field_of h "wordID" o) as [[]|]; apply _.
Defined.

(** The store [h'] differs from [h] at most in the ['wordID'] fields of
    its tokens: the same objects exist, with the same other fields. *)
Definition only_wordID_changed (h h' : gmap nat (gmap string value)) : Prop :=
  (∀ o, is_Some (h' !! o) ↔ is_Some (h !! o)) ∧
  (∀ o k, k ≠ "wordID" → field_of h' k o = field_of h k o).

(** The distinct elements of a list, in the order of their first
    occurrence. *)
Fixpoint first_occurrences `{EqDecision A} (l : list A) : list A :=
  match l with
  | [] => []
  | x :: l' => x :: filter (λ y, y ≠ x) (first_occurrences l')
  end.

(** The groups of a list under a key function: one per distinct key, in
    first-occurrence order, each holding the elements with that key in list
    order. *)
Definition groups_of `{EqDecision K} {A : Type} (key : A → K) (l : list A)
  : list (K * list A) :=
  (λ c, (c, filter (λ o, key o = c) l)) <$> first_occurrences (key <$> l).

(** ** Example data *)

Definition analyses_oli : list (gmap string string) :=
  [ {[ "root" := "ole"; "partofspeech" := "V"; "form" := "s" ]};
    {[ "root" := "oli"; "partofspeech" := "S"; "form" := "sg n" ]} ].

(** A token with two analyses, a verb and a noun. *)
Definition token_oli : gmap string value :=
  {[ "text" := VStr "oli"; "analysis" := VList analyses_oli ]}.

(** A token that has not been analysed. *)
Definition token_plain : gmap string value := {[ "text" := VStr "oli" ]}.

(** An indexed token without analyses. *)
Definition token_indexed : gmap string value :=
  {[ "text" := VStr "xyz"; "wordID" := VInt 0 ]}.

(** [WordTemplate({'partofspeech': 'S', 'text': 'ol'})] *)
Definition template_S_ol : WordTemplate string :=
  {| analysisRules := Some [("partofspeech", "S")];
     otherRules := Some [("text", "ol")] |}.

(** [WordTemplate({'partofspeech': 'S', 'text': 'abc'})] *)
Definition template_S_abc : WordTemplate string :=
  {| analysisRules := Some [("partofspeech", "S")];
     otherRules := Some [("text", "abc")] |}.

(** [WordTemplate({'text': 'ol'})] *)
Definition template_ol : WordTemplate string :=
  {| analysisRules := None; otherRules := Some [("text", "ol")] |}.

(** [WordTemplate({'text': 'abc', 'wordID': '0'})] *)
Definition template_abc_wordID : WordTemplate string :=
  {| analysisRules := None;
     otherRules := Some [("text", "abc"); ("wordID", "0")] |}.

(** [WordTemplate({})] *)
Definition template_empty : WordTemplate string :=
  {| analysisRules := None; otherRules := None |}.

(** Three distinct tokens, not indexed, in clauses 7, 4 and 7. *)
Definition store_fresh : gmap nat (gmap string value) :=
  {[ 0 := {[ "text" := VStr "a"; "clauseID" := VInt 7 ]};
     1 := {[ "text" := VStr "b"; "clauseID" := VInt 4 ]};
     2 := {[ "text" := VStr "c"; "clauseID" := VInt 7 ]} ]}.

(** Three distinct tokens indexed 0, 1, 2. *)
Definition store_indexed : gmap nat (gmap string value) :=
  {[ 0 := {[ "text" := VStr "a"; "wordID" := VInt 0 ]};
     1 := {[ "text" := VStr "b"; "wordID" := VInt 1 ]};
     2 := {[ "text" := VStr "c"; "wordID" := VInt 2 ]} ]}.

(** Two indexed tokens and one without a wordID. *)
Definition store_partial : gmap nat (gmap string value) :=
  {[ 0 := {[ "text" := VStr "a"; "wordID" := VInt 0 ]};
     1 := {[ "text" := VStr "b"; "wordID" := VInt 2 ]};
     2 := {[ "text" := VStr "c" ]} ]}.

(** A token in clause 7, a token without a clauseID, and a token whose
    clauseID is a list. *)
Definition store_clauses : gmap nat (gmap string value) :=
  {[ 0 := {[ "text" := VStr "a"; "clauseID" := VInt 7 ]};
     1 := {[ "text" := VStr "b" ]};
     2 := {[ "text" := VStr "c"; "clauseID" := VList [] ]} ]}.

(** A sentence that holds the token object at location 0 twice:
    [t = {...}; s = [t, t, u, v]]. *)
Definition sentence_aliased : list nat := [0; 0; 1; 2].

(** * Properties *)

(** ** The result monad *)

#[global] Instance exn_eq_dec : EqDecision exn.
Proof. solve_decision. Defined.
#[global] Instance result_eq_dec `{EqDecision A} : EqDecision (result A).
Proof. solve_decision. Defined.

Section result_lemmas.
Context {A B : Type}.
Implicit Types (f : A → result B) (l : list A).

Lemma mapM_result_cons f x l :
  mapM f (x :: l) = (y ← f x; k ← mapM f l; Ok (y :: k)).
Proof. reflexivity. Qed.

Lemma mapM_Ok_fmap (g : A → B) f l :
  (∀ x, x ∈ l → f x = Ok (g x)) → mapM f l = Ok (g <$> l).
Proof.
  induction l as [|x l IH]; intros Hf; [done|].
  rewrite mapM_result_cons, (Hf x) by left.
  rewrite IH by (intros; apply Hf; by right). done.
Qed.

Lemma mapM_Ok_Forall2 f l k :
  mapM f l = Ok k ↔ Forall2 (λ x y, f x = Ok y) l k.
Proof.
  revert k. induction l as [|x l IH]; intros k.
  - split; [intros [= <-]; constructor | by inversion 1].
  - rewrite mapM_result_cons. split.
    + destruct (f x) as [y|] eqn:Hx; [|done]. simpl.
      destruct (mapM f l) as [k'|] eqn:Hl; [|done]. intros [= <-].
      constructor; [done|]. by apply IH.
    + inversion 1 as [|? y ? k' Hx Hl]; subst. rewrite Hx. simpl.
      apply IH in Hl. by rewrite Hl.
Qed.

Lemma mapM_Raise f l e :
  mapM f l = Raise e → ∃ x, x ∈ l ∧ f x = Raise e.
Proof.
  induction l as [|x l IH]; [done|]. rewrite mapM_result_cons.
  destruct (f x) as [y|e'] eqn:Hx; simpl.
  - destruct (mapM f l) as [k'|e'] eqn:Hl; [done|]. intros [= <-].
    destruct IH as (x' & ? & ?); [done|]. exists x'. split; [by right|done].
  - intros [= <-]. exists x. split; [by left|done].
Qed.

Lemma mapM_Ok_total f l :
  (∀ x, x ∈ l → ∃ y, f x = Ok y) → ∃ k, mapM f l = Ok k.
Proof.
  induction l as [|x l IH]; intros Hf; [by eexists|].
  destruct (Hf x) as [y Hy]; [by left|].
  destruct IH as [k Hk]; [intros; apply Hf; by right|].
  exists (y :: k). by rewrite mapM_result_cons, Hy, Hk.
Qed.

End result_lemmas.

Lemma all_true_iff (l : list bool) : all l = true ↔ ∀ b, b ∈ l → b = true.
Proof.
  unfold all. rewrite forallb_forall. setoid_rewrite <-list_elem_of_In.
  unfold id. done.
Qed.

Lemma any_true_iff (l : list bool) : any l = true ↔ true ∈ l.
Proof.
  unfold any. rewrite existsb_exists. setoid_rewrite <-list_elem_of_In.
  unfold id. split; [by intros (b & ? & ->) | by exists true].
Qed.

(** ** Filters *)

Section filter_lemmas.
Context {A : Type}.
Implicit Types (l : list A).

Lemma filter_ext_in (P Q : A → Prop)
    `{!∀ x, Decision (P x), !∀ x, Decision (Q x)} l :
  (∀ x, x ∈ l → P x ↔ Q x) → filter P l = filter Q l.
Proof.
  induction l as [|x l IH]; intros Hext; [done|].
  rewrite !filter_cons, IH by (intros; apply Hext; by right).
  apply decide_ext, Hext. by left.
Qed.

Lemma filter_all (P : A → Prop) `{!∀ x, Decision (P x)} l :
  (∀ x, x ∈ l → P x) → filter P l = l.
Proof.
  induction l as [|x l IH]; intros HP; [done|].
  rewrite filter_cons_True by (apply HP; by left).
  by rewrite IH by (intros; apply HP; by right).
Qed.

Lemma filter_none (P : A → Prop) `{!∀ x, Decision (P x)} l :
  (∀ x, x ∈ l → ¬ P x) → filter P l = [].
Proof.
  intros HP. apply elem_of_nil_inv. intros x [? ?]%list_elem_of_filter.
  by eapply HP.
Qed.

End filter_lemmas.

(** ** Selecting from an enumerated list *)

Lemma enumerate_from_cons {A : Type} k (x : A) l :
  enumerate_from k (x :: l) = (k, x) :: enumerate_from (S k) l.
Proof. reflexivity. Qed.

Lemma elem_of_enumerate_from {A : Type} k (l : list A) i x :
  (i, x) ∈ enumerate_from k l ↔ ∃ j, i = k + j ∧ l !! j = Some x.
Proof.
  revert k. induction l as [|y l IH]; intros k.
  - split; [by intros ?%elem_of_nil | by intros (j & _ & ?)].
  - rewrite enumerate_from_cons, elem_of_cons, IH. split.
    + intros [[= -> ->]|(j & -> & Hj)]; [exists 0 | exists (S j)];
        (split; [lia|done]).
    + intros ([|j] & -> & Hj); simpl in Hj.
      * left. injection Hj as ->. f_equal. lia.
      * right. exists j. split; [lia|done].
Qed.

Lemma elem_of_enumerate {A : Type} (l : list A) i x :
  (i, x) ∈ enumerate l ↔ l !! i = Some x.
Proof.
  unfold enumerate. rewrite elem_of_enumerate_from. split.
  - by intros (j & -> & ?).
  - intros ?. by exists i.
Qed.

(** Filtering an enumerated list on the elements keeps the elements that
    pass, in order. *)
Lemma filter_enumerate_from_snd {A : Type} (P : A → Prop)
    `{∀ x, Decision (P x)} k (l : list A) :
  (filter (λ it, P it.2) (enumerate_from k l)).*2 = filter P l.
Proof.
  revert k. induction l as [|x l IH]; intros k; [done|].
  rewrite enumerate_from_cons, !filter_cons. simpl.
  case_decide; simpl; by rewrite IH.
Qed.

(** ... and the positions it keeps are strictly increasing. *)
Lemma filter_enumerate_from_fst {A : Type} (P : nat * A → Prop)
    `{∀ it, Decision (P it)} k (l : list A) :
  StronglySorted lt (filter P (enumerate_from k l)).*1 ∧
  Forall (le k) (filter P (enumerate_from k l)).*1.
Proof.
  revert k. induction l as [|x l IH]; intros k.
  - split; constructor.
  - rewrite enumerate_from_cons, filter_cons.
    destruct (IH (S k)) as [Hs Hle]. case_decide; simpl.
    + split.
      * constructor; [done|]. eapply Forall_impl; [exact Hle|]. simpl. lia.
      * constructor; [done|]. eapply Forall_impl; [exact Hle|]. simpl. lia.
    + split; [done|]. eapply Forall_impl; [exact Hle|]. simpl. lia.
Qed.

(** A loop that appends [g x] for the [x] on which the test [f] holds
    computes a filter, provided the test raises on no element. *)
Lemma for_each_select {A B : Type} (f : A → result bool) (g : A → B) l acc :
  for_each (λ acc x, m ← f x; if m : bool then Ok (acc ++ [g x]) else Ok acc)
           acc l
  = (_ ← mapM f l; Ok (acc ++ (g <$> filter (λ x, f x = Ok true) l))).
Proof.
  revert acc. induction l as [|x l IH]; intros acc.
  - simpl. by rewrite app_nil_r.
  - rewrite mapM_result_cons, filter_cons. simpl.
    destruct (f x) as [[]|e] eqn:Hx; simpl; [| |done].
    + rewrite IH. destruct (mapM f l); simpl; [|done].
      by rewrite <-app_assoc.
    + rewrite IH. by destruct (mapM f l).
Qed.

(** ** WordTemplate: matching a single token *)

Lemma dict_set_not_nil `{EqDecision K} {V : Type} (d : list (K * V)) k v :
  dict_set d k v ≠ [].
Proof. destruct d as [|[k' v'] d]; simpl; [done|]. by case_decide. Qed.

Section WordTemplate_properties.

Context {Pattern : Type}.
Variable re_compile : string → option Pattern.
Variable re_match : Pattern → string → bool.

Implicit Types (self : WordTemplate Pattern) (tokenJson : gmap string value).
Implicit Types (rules : list (string * Pattern)).

(** A rule dict, once created, is never empty. *)
Lemma reachable_not_nil self :
  reachable re_compile self →
  analysisRules self ≠ Some [] ∧ otherRules self ≠ Some [].
Proof.
  induction 1 as [|self field pat self' _ [IHa IHo] Hadd]; [done|].
  unfold addRule in Hadd. destruct (re_compile pat); [|done].
  case_bool_decide; injection Hadd as <-; simpl; split; try done;
    intros [= Hnil]; by apply dict_set_not_nil in Hnil.
Qed.

Lemma other_match_passes tokenJson rule :
  rule_passes re_match tokenJson rule →
  other_match re_match tokenJson rule = Ok true.
Proof. intros (s & Hs & Hm). unfold other_match. by rewrite Hs, Hm. Qed.

Lemma other_match_on_string tokenJson rule :
  rule_on_string tokenJson rule →
  ∃ b, other_match re_match tokenJson rule = Ok b.
Proof.
  unfold other_match. intros [->|[s ->]]; by eexists.
Qed.

Lemma other_match_fails tokenJson rule :
  rule_fails re_match tokenJson rule →
  other_match re_match tokenJson rule = Ok false.
Proof.
  unfold other_match. intros [->|(s & -> & ->)]; done.
Qed.

(** When every token-scoped rule passes, [otherMatches] is all [True]. *)
Lemma otherMatches_pass tokenJson rules :
  Forall (rule_passes re_match tokenJson) rules →
  mapM (other_match re_match tokenJson) rules = Ok (const true <$> rules).
Proof.
  intros Hall. apply mapM_Ok_fmap. intros rule Hin.
  apply other_match_passes. by eapply Forall_forall in Hall.
Qed.

Lemma all_const_true {X : Type} (l : list X) : all (const true <$> l) = true.
Proof. by induction l. Qed.

(** Whether an analysis dict satisfies all the rules, as a boolean. *)
Lemma rule_matches_break_dict rules a :
  ∃ ms, rule_matches_break re_match rules (EDict a) = Ok ms ∧
        all ms = forallb (λ rule, re_match rule.2 (default "" (a !! rule.1))) rules.
Proof.
  induction rules as [|[field pat] rules (ms & IH & Hms)]; [by eexists|].
  simpl. destruct (re_match pat _) eqn:Hm.
  - rewrite IH. simpl. exists (true :: ms). by rewrite <-Hms.
  - by eexists.
Qed.

Lemma forallb_analysis_satisfies rules a :
  forallb (λ rule, re_match rule.2 (default "" (a !! rule.1))) rules = true ↔
  analysis_satisfies re_match rules a.
Proof.
  rewrite forallb_forall. unfold analysis_satisfies.
  by setoid_rewrite list_elem_of_In.
Qed.

Lemma totalMatches_dicts rules (l : list (gmap string string)) :
  mapM (λ analysis, ms ← rule_matches_break re_match rules analysis; Ok (all ms))
       (EDict <$> l)
  = Ok ((λ a, forallb (λ rule, re_match rule.2 (default "" (a !! rule.1))) rules)
          <$> l).
Proof.
  induction l as [|a l IH]; [done|]. rewrite fmap_cons, mapM_result_cons.
  destruct (rule_matches_break_dict rules a) as (ms & Hbreak & Hms).
  rewrite Hbreak. simpl. by rewrite Hms, IH.
Qed.

Lemma for_each_addRule_reachable (newRules : list (string * string)) self self' :
  reachable re_compile self →
  for_each (λ self rule, addRule re_compile self rule.1 rule.2) self newRules
    = Ok self' →
  reachable re_compile self'.
Proof.
  revert self. induction newRules as [|[field pat] newRules IH];
    intros self Hreach; simpl.
  - by intros [= <-].
  - destruct (addRule re_compile self field pat) as [self1|] eqn:Hadd; [|done].
    simpl. apply IH. by eapply reachable_addRule.
Qed.

Lemma WordTemplate_init_reachable (newRules : list (string * string)) self :
  WordTemplate_init re_compile newRules = Ok self → reachable re_compile self.
Proof. apply for_each_addRule_reachable. constructor. Qed.

(** C1.  Existential matching: for a template built through the constructor
    and [addRule] that has analysis-scoped rules and whose token-scoped
    rules, if any, all pass on the token, and for a token carrying a list of
    analyses, [matches] returns a boolean, and it is [True] exactly when
    some analysis of the token satisfies every analysis-scoped rule (a
    missing field read as the empty string). *)
Theorem matches_existential self tokenJson arules (l : list (gmap string string)) :
  reachable re_compile self →
  analysisRules self = Some arules →
  (∀ orules, otherRules self = Some orules →
             Forall (rule_passes re_match tokenJson) orules) →
  tokenJson !! "analysis" = Some (VList l) →
  ∃ b, matches re_match self tokenJson = Ok b ∧
       (b = true ↔ ∃ a, a ∈ l ∧ analysis_satisfies re_match arules a).
Proof.
  intros Hreach Ha Ho Hl. apply reachable_not_nil in Hreach as [_ Hne].
  exists (any ((λ a, forallb
     (λ rule, re_match rule.2 (default "" (a !! rule.1))) arules) <$> l)).
  split.
  - unfold matches. rewrite Ha.
    destruct (otherRules self) as [orules|] eqn:Eo; simpl.
    + rewrite (otherMatches_pass _ _ (Ho _ eq_refl)). simpl.
      rewrite all_const_true. case_bool_decide as Hnil; simpl.
      { apply fmap_nil_inv in Hnil. by subst. }
      by rewrite Hl; simpl; rewrite totalMatches_dicts.
    + by rewrite Hl; simpl; rewrite totalMatches_dicts.
  - rewrite any_true_iff, list_elem_of_fmap.
    split; intros (a & H1 & H2); exists a.
    + split; [done|]. by apply forallb_analysis_satisfies.
    + split; [|done]. symmetry. by apply forallb_analysis_satisfies.
Qed.

(** C2 (amended).  Token-scoped gating: when every token-scoped rule
    addresses a field that is absent from the token or holds a string, and
    some token-scoped rule fails on the token, [matches] returns [False],
    whatever the analysis-scoped rules and the token's analyses are. *)
Theorem matches_token_gate self tokenJson orules :
  otherRules self = Some orules →
  Forall (rule_on_string tokenJson) orules →
  Exists (rule_fails re_match tokenJson) orules →
  matches re_match self tokenJson = Ok false.
Proof.
  intros Ho Hstr Hfail. unfold matches. rewrite Ho.
  destruct (mapM_Ok_total (other_match re_match tokenJson) orules) as [ms Hms].
  { intros rule Hin. apply other_match_on_string.
    by eapply Forall_forall in Hstr. }
  rewrite Hms. simpl.
  assert (all ms = false) as Hall.
  { apply not_true_is_false. rewrite all_true_iff. intros Htrue.
    apply Exists_exists in Hfail as (rule & Hin & Hrule).
    apply other_match_fails in Hrule. apply mapM_Ok_Forall2 in Hms.
    apply list_elem_of_lookup in Hin as [i Hi].
    destruct (Forall2_lookup_l _ _ _ _ _ Hms Hi) as (b & Hb & Hmb).
    rewrite Hrule in Hmb. injection Hmb as <-.
    by specialize (Htrue false (list_elem_of_lookup_2 _ _ _ Hb)). }
  rewrite Hall. simpl. by rewrite orb_true_r.
Qed.

(** C3 (amended).  Missing analysis: for a template built through the
    constructor and [addRule] that has analysis-scoped rules and whose
    token-scoped rules, if any, all pass on the token, [matches] on a token
    without the ['analysis'] field fails with the assertion error and
    returns no boolean. *)
Theorem matches_missing_analysis self tokenJson arules :
  reachable re_compile self →
  analysisRules self = Some arules →
  (∀ orules, otherRules self = Some orules →
             Forall (rule_passes re_match tokenJson) orules) →
  tokenJson !! "analysis" = None →
  matches re_match self tokenJson = Raise AssertionError.
Proof.
  intros Hreach Ha Ho Hl. apply reachable_not_nil in Hreach as [_ Hne].
  unfold matches. rewrite Ha.
  destruct (otherRules self) as [orules|] eqn:Eo; simpl.
  - rewrite (otherMatches_pass _ _ (Ho _ eq_refl)). simpl.
    rewrite all_const_true. case_bool_decide as Hnil; simpl.
    { apply fmap_nil_inv in Hnil. by subst. }
    by rewrite Hl.
  - by rewrite Hl.
Qed.

(** C4.  Asymmetry: for a template built through the constructor and
    [addRule] with token-scoped rules and no analysis-scoped rule, on a
    token on which every token-scoped rule passes, [matchingAnalyses]
    returns the empty list while [matches] returns [True]. *)
Theorem matchingAnalyses_asymmetry self tokenJson orules :
  reachable re_compile self →
  otherRules self = Some orules →
  analysisRules self = None →
  Forall (rule_passes re_match tokenJson) orules →
  matchingAnalyses re_match self tokenJson = Ok [] ∧
  matches re_match self tokenJson = Ok true.
Proof.
  intros Hreach Ho Ha Hpass. apply reachable_not_nil in Hreach as [_ Hne].
  assert (orules ≠ []) as Hnil by (intros ->; done).
  unfold matchingAnalyses, matches. rewrite Ho, Ha.
  rewrite (otherMatches_pass _ _ Hpass). simpl. rewrite all_const_true.
  case_bool_decide as Hnil'; [by apply fmap_nil_inv in Hnil'|]. done.
Qed.

(** C5.  Empty rule set: a template built through the constructor and
    [addRule] in which neither partition holds a rule matches no token:
    [matches] returns [False]. *)
Theorem matches_empty_rule_set self tokenJson :
  reachable re_compile self →
  holds_no_rule (analysisRules self) →
  holds_no_rule (otherRules self) →
  matches re_match self tokenJson = Ok false.
Proof.
  intros Hreach Ha Ho. apply reachable_not_nil in Hreach as [Hna Hno].
  unfold holds_no_rule in *. unfold matches.
  destruct (analysisRules self) as [ar|], (otherRules self) as [or|];
    simpl in *; subst; done.
Qed.

(** ** WordTemplate: matches from a list of tokens *)

Lemma matchingPositions_filter self (tokenArray : list (gmap string value)) :
  matchingPositions re_match self tokenArray =
  (_ ← mapM (λ it, matches re_match self it.2) (enumerate tokenArray);
   Ok (filter (λ it, matches re_match self it.2 = Ok true)
              (enumerate tokenArray)).*1).
Proof.
  unfold matchingPositions.
  by rewrite (for_each_select (λ it, matches re_match self it.2) fst).
Qed.

Lemma matchingTokens_filter self (tokenArray : list (gmap string value)) :
  matchingTokens re_match self tokenArray =
  (_ ← mapM (λ it, matches re_match self it.2) (enumerate tokenArray);
   Ok (filter (λ it, matches re_match self it.2 = Ok true)
              (enumerate tokenArray)).*2).
Proof.
  unfold matchingTokens.
  by rewrite (for_each_select (λ it, matches re_match self it.2) snd).
Qed.

(** C6.  The two sequence queries correspond.  They raise together, with
    the exception [matches] raises on some token; otherwise both return:
    the lists have equal length, position [j] of [matchingPositions] indexes
    in [tokenArray] the token at position [j] of [matchingTokens], the
    positions are strictly increasing (input order, no repeats) and are
    exactly those where [matches] is [True], and the tokens are the
    order-preserving filter of [tokenArray].  Both return whenever [matches]
    returns on every token. *)
Theorem matchingPositions_matchingTokens self
    (tokenArray : list (gmap string value)) :
  match matchingPositions re_match self tokenArray,
        matchingTokens re_match self tokenArray with
  | Ok ps, Ok ts =>
      length ps = length ts ∧
      (∀ j p, ps !! j = Some p →
              ∃ t, tokenArray !! p = Some t ∧ ts !! j = Some t) ∧
      StronglySorted lt ps ∧
      (∀ p, p ∈ ps ↔ ∃ t, tokenArray !! p = Some t ∧
                           matches re_match self t = Ok true) ∧
      ts = filter (λ t, matches re_match self t = Ok true) tokenArray
  | Raise e, Raise e' =>
      e = e' ∧ ∃ t, t ∈ tokenArray ∧ matches re_match self t = Raise e
  | _, _ => False
  end ∧
  ((∀ t, t ∈ tokenArray → ∃ b, matches re_match self t = Ok b) →
   ∃ ps ts, matchingPositions re_match self tokenArray = Ok ps ∧
            matchingTokens re_match self tokenArray = Ok ts).
Proof.
  rewrite matchingPositions_filter, matchingTokens_filter.
  set (P := λ it : nat * gmap string value,
              matches re_match self it.2 = Ok true).
  destruct (mapM _ (enumerate tokenArray)) as [bs|e] eqn:Hbs; simpl.
  - split; [|by eauto]. split; [by rewrite !length_fmap|].
    split; [|split; [|split]].
    + intros j p Hj. rewrite list_lookup_fmap in Hj.
      destruct (filter P (enumerate tokenArray) !! j) as [[p' t]|] eqn:Hit;
        simplify_eq/=.
      exists t. split; [|by rewrite list_lookup_fmap, Hit].
      apply list_elem_of_lookup_2, list_elem_of_filter in Hit as [_ Hin].
      by apply elem_of_enumerate in Hin.
    + apply (filter_enumerate_from_fst P 0 tokenArray).
    + intros p. rewrite list_elem_of_fmap. split.
      * intros ([p' t] & -> & [HP Hin]%list_elem_of_filter).
        exists t. split; [by apply elem_of_enumerate in Hin|done].
      * intros (t & Hp & Ht). exists (p, t). split; [done|].
        apply list_elem_of_filter. split; [done|]. by apply elem_of_enumerate.
    + symmetry. unfold P, enumerate.
      by rewrite <-(filter_enumerate_from_snd
                     (λ t, matches re_match self t = Ok true) 0 tokenArray).
  - split.
    + split; [done|]. apply mapM_Raise in Hbs as ([i t] & Hin & Ht).
      exists t. split; [|done]. apply elem_of_enumerate in Hin.
      by eapply list_elem_of_lookup_2.
    + intros Hok. exfalso.
      apply mapM_Raise in Hbs as ([i t] & Hin & Ht).
      apply elem_of_enumerate, list_elem_of_lookup_2 in Hin.
      destruct (Hok t Hin) as [b Hb]. simpl in Ht. congruence.
Qed.

End WordTemplate_properties.

(** *** The matching laws on the example tokens *)

Lemma matches_existential_witness :
  ∃ b, matches lit_match template_S_ol token_oli = Ok b ∧
       (b = true ↔
        ∃ a, a ∈ analyses_oli ∧
             analysis_satisfies lit_match [("partofspeech", "S")] a).
Proof.
  apply (matches_existential lit_compile lit_match template_S_ol token_oli).
  - by apply (WordTemplate_init_reachable lit_compile
                [("partofspeech", "S"); ("text", "ol")]).
  - reflexivity.
  - intros orules [= <-]. repeat constructor.
    exists "oli". split; reflexivity.
  - reflexivity.
Defined.

Lemma matches_token_gate_witness :
  matches lit_match template_S_abc token_oli = Ok false.
Proof.
  apply (matches_token_gate lit_match template_S_abc token_oli
           [("text", "abc")]).
  - reflexivity.
  - apply Forall_cons. split; [|constructor]. right. by exists "oli".
  - apply Exists_cons_hd. right. exists "oli". split; reflexivity.
Defined.

(** The gating law as the claim has it fails on a token whose wordID is
    addressed by a rule: the rule on ['text'] fails, and [matches] raises
    on the integer instead of returning [False]. *)
Lemma matches_token_gate_counterexample :
  reachable lit_compile template_abc_wordID ∧
  otherRules template_abc_wordID = Some [("text", "abc"); ("wordID", "0")] ∧
  Exists (rule_fails lit_match token_indexed) [("text", "abc"); ("wordID", "0")] ∧
  matches lit_match template_abc_wordID token_indexed = Raise TypeError.
Proof.
  split; [|split; [|split]].
  - by apply (WordTemplate_init_reachable lit_compile
                [("text", "abc"); ("wordID", "0")]).
  - reflexivity.
  - apply Exists_cons_hd. right. exists "xyz". split; reflexivity.
  - reflexivity.
Qed.

Lemma matches_missing_analysis_witness :
  matches lit_match template_S_ol token_plain = Raise AssertionError.
Proof.
  apply (matches_missing_analysis lit_compile lit_match template_S_ol
           token_plain [("partofspeech", "S")]).
  - by apply (WordTemplate_init_reachable lit_compile
                [("partofspeech", "S"); ("text", "ol")]).
  - reflexivity.
  - intros orules [= <-]. repeat constructor.
    exists "oli". split; reflexivity.
  - reflexivity.
Defined.

(** The missing-analysis law as the claim has it fails when a token-scoped
    rule fails first: the template has an analysis-scoped rule, the token
    has no ['analysis'], and [matches] returns [False]. *)
Lemma matches_missing_analysis_counterexample :
  reachable lit_compile template_S_abc ∧
  analysisRules template_S_abc = Some [("partofspeech", "S")] ∧
  token_plain !! "analysis" = None ∧
  matches lit_match template_S_abc token_plain = Ok false.
Proof.
  split; [|split; [|split]]; try reflexivity.
  by apply (WordTemplate_init_reachable lit_compile
              [("partofspeech", "S"); ("text", "abc")]).
Qed.

Lemma matchingAnalyses_asymmetry_witness :
  matchingAnalyses lit_match template_ol token_oli = Ok [] ∧
  matches lit_match template_ol token_oli = Ok true.
Proof.
  apply (matchingAnalyses_asymmetry lit_compile lit_match template_ol
           token_oli [("text", "ol")]).
  - by apply (WordTemplate_init_reachable lit_compile [("text", "ol")]).
  - reflexivity.
  - reflexivity.
  - repeat constructor. exists "oli". split; reflexivity.
Defined.

Lemma matches_empty_rule_set_witness :
  matches lit_match template_empty token_oli = Ok false.
Proof.
  apply (matches_empty_rule_set lit_compile lit_match template_empty token_oli).
  - constructor.
  - reflexivity.
  - reflexivity.
Defined.

(** The two-analysis token: the noun rule matches the token, and the two
    sequence queries agree on a three-token array. *)
Example matches_ambiguous :
  matches lit_match template_S_ol token_oli = Ok true ∧
  matchingAnalyses lit_match template_S_ol token_oli
    = Ok [EDict {[ "root" := "oli"; "partofspeech" := "S"; "form" := "sg n" ]}] ∧
  matchingPositions lit_match template_ol [token_oli; token_indexed; token_plain]
    = Ok [0; 2] ∧
  matchingTokens lit_match template_ol [token_oli; token_indexed; token_plain]
    = Ok [token_oli; token_plain].
Proof. repeat split; by vm_compute. Qed.

(** ** The store monad *)

Lemma M_bind_unfold {A B : Type} (m : M A) (f : A → M B) h :
  (m ≫= f) h =
  match m h with
  | (Ok a, h') => f a h'
  | (Raise e, h') => (Raise e, h')
  end.
Proof. reflexivity. Qed.

Lemma M_bind_Ok {A B : Type} (m : M A) (f : A → M B) h a h' :
  m h = (Ok a, h') → (m ≫= f) h = f a h'.
Proof. intros Hm. by rewrite M_bind_unfold, Hm. Qed.

Lemma M_bind_Raise {A B : Type} (m : M A) (f : A → M B) h e h' :
  m h = (Raise e, h') → (m ≫= f) h = (Raise e, h').
Proof. intros Hm. by rewrite M_bind_unfold, Hm. Qed.

Lemma for_each_M_cons {A S : Type} (body : S → A → M S) acc x l h :
  for_each body acc (x :: l) h =
  match body acc x h with
  | (Ok acc', h') => for_each body acc' l h'
  | (Raise e, h') => (Raise e, h')
  end.
Proof. reflexivity. Qed.

(** A loop whose body only reads the store computes a left fold and leaves
    the store as it was. *)
Lemma for_each_M_pure {A S : Type} (body : S → A → M S) (g : S → A → S) l acc h :
  (∀ acc x, x ∈ l → body acc x h = (Ok (g acc x), h)) →
  for_each body acc l h = (Ok (foldl g acc l), h).
Proof.
  revert acc. induction l as [|x l IH]; intros acc Hbody; [done|].
  rewrite for_each_M_cons, Hbody by left. simpl.
  apply IH. intros acc' y Hy. apply Hbody. by right.
Qed.

Lemma mapM_M_pure {A B : Type} (f : A → M B) (g : A → B) (l : list A) h :
  (∀ x, x ∈ l → f x h = (Ok (g x), h)) →
  mapM f l h = (Ok (g <$> l), h).
Proof.
  induction l as [|x l IH]; intros Hf; [done|].
  change (mapM f (x :: l)) with (y ← f x; k ← mapM f l; mret (y :: k)).
  rewrite M_bind_unfold, Hf by left. rewrite M_bind_unfold, IH; [done|].
  intros y Hy. apply Hf. by right.
Qed.

Lemma foldl_select {A B : Type} (P : A → Prop) `{∀ x, Decision (P x)}
    (g : A → B) l acc :
  foldl (λ acc x, if decide (P x) then acc ++ [g x] else acc) acc l
  = acc ++ (g <$> filter P l).
Proof.
  revert acc. induction l as [|x l IH]; intros acc; simpl.
  - by rewrite app_nil_r.
  - rewrite IH, filter_cons. case_decide; [|done].
    by rewrite <-app_assoc.
Qed.

Lemma field_of_Some h k o v :
  field_of h k o = Some v ↔ ∃ d, h !! o = Some d ∧ d !! k = Some v.
Proof.
  unfold field_of. destruct (h !! o) as [d|]; simpl.
  - split; [by exists d | by intros (? & [= <-] & ?)].
  - split; [done | by intros (? & ? & ?)].
Qed.

Lemma contains_carries h k o v :
  field_of h k o = Some v → contains o k h = (Ok true, h).
Proof.
  intros (d & Hd & Hk)%field_of_Some. unfold contains. rewrite Hd.
  by rewrite bool_decide_eq_true_2 by (by rewrite Hk).
Qed.

Lemma contains_lacks h k o :
  lacks h k o → contains o k h = (Ok false, h).
Proof.
  intros (d & Hd & Hk). unfold contains. rewrite Hd.
  rewrite bool_decide_eq_false_2; [done|]. rewrite Hk. by intros [? ?].
Qed.

Lemma getitem_carries h k o v :
  field_of h k o = Some v → getitem o k h = (Ok v, h).
Proof.
  intros (d & Hd & Hk)%field_of_Some. unfold getitem. by rewrite Hd, Hk.
Qed.

(** ** getWordIDrange *)

(** The loop body of [getWordIDrange] on a token with an integer wordID. *)
Lemma getWordIDrange_body a b h (tokens : list nat) (it : nat * nat) n :
  field_of h "wordID" it.2 = Some (VInt n) →
  (has ← contains it.2 "wordID";
   assert_ has;;
   w ← getitem it.2 "wordID";
   c ← in_range a b w;
   if c : bool then mret (tokens ++ [it.2]) else mret tokens) h
  = (Ok (if decide (wordID_in a b h it.2) then tokens ++ [it.2] else tokens), h).
Proof.
  intros Hw.
  rewrite (M_bind_Ok _ _ _ _ _ (contains_carries _ _ _ _ Hw)).
  rewrite (M_bind_Ok (assert_ true) _ h tt h eq_refl).
  rewrite (M_bind_Ok _ _ _ _ _ (getitem_carries _ _ _ _ Hw)).
  rewrite (M_bind_Ok (in_range a b (VInt n)) _ h _ h eq_refl).
  assert (wordID_in a b h it.2 ↔ (a ≤ n < b)%Z) as Hin
    by (unfold wordID_in; by rewrite Hw).
  destruct (Z.leb_spec a n), (Z.ltb_spec n b); simpl;
    first [by rewrite decide_True by (apply Hin; lia)
          | by rewrite decide_False by (rewrite Hin; lia)].
Qed.

Lemma getWordIDrange_filter a b h (jsonSent : list nat) :
  Forall (λ o, ∃ n, field_of h "wordID" o = Some (VInt n)) jsonSent →
  getWordIDrange a b jsonSent h = (Ok (filter (wordID_in a b h) jsonSent), h).
Proof.
  intros Hall. unfold getWordIDrange.
  rewrite (for_each_M_pure _
    (λ tokens it, if decide (wordID_in a b h it.2) then tokens ++ [it.2]
                  else tokens)).
  - rewrite (foldl_select (λ it, wordID_in a b h it.2) snd). simpl.
    unfold enumerate. by rewrite filter_enumerate_from_snd.
  - intros tokens [i o] Hin. apply elem_of_enumerate in Hin.
    apply list_elem_of_lookup_2 in Hin.
    eapply Forall_forall in Hall as [n Hn]; [|done].
    by eapply getWordIDrange_body.
Qed.

(** C8.  Range extraction: on a sentence in which every token carries an
    integer wordID, [getWordIDrange a b] returns, without touching the
    store, exactly the tokens with [a <= wordID < b] in sentence order; an
    empty range [k, k) gives the empty list; and on a sentence whose token
    at each position [i] has wordID [i], the range [0, len) gives back the
    sentence. *)
Theorem getWordIDrange_spec h (jsonSent : list nat) :
  Forall (λ o, ∃ n, field_of h "wordID" o = Some (VInt n)) jsonSent →
  (∀ a b, getWordIDrange a b jsonSent h
          = (Ok (filter (wordID_in a b h) jsonSent), h)) ∧
  (∀ k, getWordIDrange k k jsonSent h = (Ok [], h)) ∧
  ((∀ i o, jsonSent !! i = Some o →
           field_of h "wordID" o = Some (VInt (Z.of_nat i))) →
   getWordIDrange 0 (Z.of_nat (length jsonSent)) jsonSent h = (Ok jsonSent, h)).
Proof.
  intros Hall. split; [|split].
  - intros a b. by apply getWordIDrange_filter.
  - intros k. rewrite getWordIDrange_filter by done. do 2 f_equal.
    apply filter_none. intros o _. unfold wordID_in.
    destruct (field_of h "wordID" o) as [[]|]; first [lia | by intros []].
  - intros Hidx. rewrite getWordIDrange_filter by done. do 2 f_equal.
    apply filter_all. intros o [i Hi]%list_elem_of_lookup.
    unfold wordID_in. rewrite (Hidx i o Hi).
    apply lookup_lt_Some in Hi. lia.
Qed.

(** ** addWordIDs *)

Lemma field_of_insert_ne h k o o' d :
  o ≠ o' → field_of (<[o := d]> h) k o' = field_of h k o'.
Proof. intros Hne. unfold field_of. by rewrite lookup_insert_ne. Qed.

Lemma lacks_insert_ne h k o o' d :
  o ≠ o' → lacks h k o' → lacks (<[o := d]> h) k o'.
Proof.
  intros Hne (d' & Hd' & Hk). exists d'. by rewrite lookup_insert_ne.
Qed.

Lemma addWordIDs_step_fresh h i o d :
  h !! o = Some d → d !! "wordID" = None →
  addWordIDs_step i o h
  = (Ok tt, <[o := <["wordID" := VInt (Z.of_nat i)]> d]> h).
Proof.
  intros Hd Hk. unfold addWordIDs_step.
  rewrite (M_bind_Ok _ _ _ _ _ (contains_lacks h "wordID" o
             (ex_intro _ d (conj Hd Hk)))).
  rewrite (M_bind_Ok (mret tt) _ h tt h eq_refl).
  unfold setitem. by rewrite Hd.
Qed.

Lemma addWordIDs_step_same h i o :
  field_of h "wordID" o = Some (VInt (Z.of_nat i)) →
  addWordIDs_step i o h = (Ok tt, h).
Proof.
  intros Hw. unfold addWordIDs_step.
  rewrite (M_bind_Ok _ _ _ _ _ (contains_carries _ _ _ _ Hw)).
  erewrite (M_bind_Ok _ _ h tt h); cycle 1.
  { rewrite (M_bind_Ok _ _ _ _ _ (getitem_carries _ _ _ _ Hw)).
    by rewrite bool_decide_eq_true_2. }
  apply field_of_Some in Hw as (d & Hd & Hk).
  unfold setitem. rewrite Hd.
  by rewrite (insert_id d _ _ Hk), (insert_id h _ _ Hd).
Qed.

Lemma addWordIDs_step_mismatch h i o v :
  field_of h "wordID" o = Some v → v ≠ VInt (Z.of_nat i) →
  addWordIDs_step i o h = (Raise AssertionError, h).
Proof.
  intros Hw Hne. unfold addWordIDs_step.
  rewrite (M_bind_Ok _ _ _ _ _ (contains_carries _ _ _ _ Hw)).
  erewrite (M_bind_Raise _ _ h); [done|].
  rewrite (M_bind_Ok _ _ _ _ _ (getitem_carries _ _ _ _ Hw)).
  by rewrite bool_decide_eq_false_2.
Qed.

(** The loop on distinct tokens none of which carries a wordID. *)
Lemma addWordIDs_loop_fresh (l : list nat) k h :
  NoDup l →
  Forall (lacks h "wordID") l →
  ∃ h', for_each (λ (_ : unit) it, addWordIDs_step it.1 it.2) tt
                 (enumerate_from k l) h = (Ok tt, h') ∧
        (∀ i o, l !! i = Some o →
                ∃ d, h !! o = Some d ∧
                     h' !! o = Some (<["wordID" := VInt (Z.of_nat (k + i))]> d)) ∧
        (∀ o, o ∉ l → h' !! o = h !! o).
Proof.
  revert k h. induction l as [|o l IH]; intros k h Hnd Hall.
  - exists h. split; [done|]. split; [by intros ? ? ?|done].
  - apply NoDup_cons in Hnd as [Hnin Hnd].
    apply Forall_cons in Hall as [(d & Hd & Hk) Hall].
    rewrite enumerate_from_cons, for_each_M_cons. simpl.
    rewrite (addWordIDs_step_fresh _ _ _ _ Hd Hk).
    destruct (IH (S k) (<[o := <["wordID" := VInt (Z.of_nat k)]> d]> h) Hnd)
      as (h' & Hrun & Hset & Hframe).
    { apply Forall_forall. intros o' Ho'. apply lacks_insert_ne.
      - by intros ->.
      - by eapply Forall_forall in Hall. }
    exists h'. split; [done|]. split.
    + intros [|i] o' Hi; simpl in Hi.
      * injection Hi as <-. exists d. split; [done|].
        rewrite (Hframe o Hnin), lookup_insert_eq. do 3 f_equal. lia.
      * destruct (Hset i o' Hi) as (d' & Hd' & Hh').
        assert (o ≠ o') as Hne
          by (intros ->; by apply list_elem_of_lookup_2 in Hi).
        rewrite lookup_insert_ne in Hd' by done.
        exists d'. split; [done|]. rewrite Hh'. do 3 f_equal. lia.
    + intros o' Ho'. apply not_elem_of_cons in Ho' as [Hne Ho'].
      rewrite (Hframe o' Ho'). by apply lookup_insert_ne.
Qed.

(** The loop on a sentence whose token at position [i] has wordID [k + i]
    changes nothing. *)
Lemma addWordIDs_loop_indexed (l : list nat) k h :
  (∀ i o, l !! i = Some o →
          field_of h "wordID" o = Some (VInt (Z.of_nat (k + i)))) →
  for_each (λ (_ : unit) it, addWordIDs_step it.1 it.2) tt
           (enumerate_from k l) h = (Ok tt, h).
Proof.
  revert k. induction l as [|o l IH]; intros k Hidx; [done|].
  rewrite enumerate_from_cons, for_each_M_cons. simpl.
  rewrite addWordIDs_step_same.
  - apply IH. intros i o' Hi. rewrite (Hidx (S i) o' Hi). do 3 f_equal. lia.
  - rewrite (Hidx 0 o eq_refl). do 3 f_equal. lia.
Qed.

(** C7 (amended).  On a sentence of pairwise distinct token objects none of
    which carries a wordID, [addWordIDs] returns the sentence; afterwards
    the token at each position [i] is the token it was with [wordID = i]
    added, tokens outside the sentence are untouched, and a second call on
    the result succeeds and leaves the store unchanged. *)
Theorem addWordIDs_fresh_idempotent h (jsonSent : list nat) :
  NoDup jsonSent →
  Forall (lacks h "wordID") jsonSent →
  ∃ h', addWordIDs jsonSent h = (Ok jsonSent, h') ∧
        (∀ i o, jsonSent !! i = Some o →
                field_of h' "wordID" o = Some (VInt (Z.of_nat i))) ∧
        (∀ i o, jsonSent !! i = Some o →
                ∃ d, h !! o = Some d ∧
                     h' !! o = Some (<["wordID" := VInt (Z.of_nat i)]> d)) ∧
        (∀ o, o ∉ jsonSent → h' !! o = h !! o) ∧
        addWordIDs jsonSent h' = (Ok jsonSent, h').
Proof.
  intros Hnd Hall.
  destruct (addWordIDs_loop_fresh jsonSent 0 h Hnd Hall)
    as (h' & Hrun & Hset & Hframe).
  assert (∀ i o, jsonSent !! i = Some o →
                 field_of h' "wordID" o = Some (VInt (Z.of_nat i))) as Hidx.
  { intros i o Hi. destruct (Hset i o Hi) as (d & _ & Hh').
    apply field_of_Some. eexists. split; [done|]. by rewrite lookup_insert_eq. }
  exists h'. unfold addWordIDs, enumerate.
  split; [by rewrite (M_bind_Ok _ _ _ _ _ Hrun)|].
  split; [done|]. split; [done|]. split; [done|].
  by rewrite (M_bind_Ok _ _ _ _ _ (addWordIDs_loop_indexed jsonSent 0 h' Hidx)).
Qed.

(** ** removeWordIDs *)

Lemma delitem_carries h k o d v :
  h !! o = Some d → d !! k = Some v →
  delitem o k h = (Ok tt, <[o := delete k d]> h).
Proof. intros Hd Hk. unfold delitem. by rewrite Hd, Hk. Qed.

Lemma delitem_lacks h k o :
  lacks h k o → delitem o k h = (Raise KeyError, h).
Proof. intros (d & Hd & Hk). unfold delitem. by rewrite Hd, Hk. Qed.

(** The loop deletes from the distinct tokens ahead of the first token
    without a wordID, and stops there with a key error. *)
Lemma removeWordIDs_loop_partial (pre post : list nat) o k h :
  NoDup pre →
  Forall (λ p, is_Some (field_of h "wordID" p)) pre →
  lacks h "wordID" o →
  ∃ h', for_each (λ (_ : unit) it, delitem it.2 "wordID") tt
                 (enumerate_from k (pre ++ o :: post)) h = (Raise KeyError, h') ∧
        (∀ p, p ∈ pre →
              ∃ d, h !! p = Some d ∧ h' !! p = Some (delete "wordID" d)) ∧
        (∀ p, p ∉ pre → h' !! p = h !! p).
Proof.
  revert k h. induction pre as [|p pre IH]; intros k h Hnd Hall Ho.
  - exists h. rewrite app_nil_l, enumerate_from_cons, for_each_M_cons. simpl.
    rewrite (delitem_lacks _ _ _ Ho).
    split; [done|]. split; [by intros ? ?%elem_of_nil|done].
  - apply NoDup_cons in Hnd as [Hnin Hnd].
    apply Forall_cons in Hall as [[v (d & Hd & Hk)%field_of_Some] Hall].
    assert (p ≠ o) as Hpo.
    { intros ->. destruct Ho as (d' & Hd' & Hk'). congruence. }
    rewrite <-app_comm_cons, enumerate_from_cons, for_each_M_cons. simpl.
    rewrite (delitem_carries _ _ _ _ _ Hd Hk).
    destruct (IH (S k) (<[p := delete "wordID" d]> h) Hnd)
      as (h' & Hrun & Hdel & Hframe).
    { apply Forall_forall. intros q Hq. rewrite field_of_insert_ne.
      - by eapply Forall_forall in Hall.
      - by intros ->. }
    { by apply lacks_insert_ne. }
    exists h'. split; [done|]. split.
    + intros q [->|Hq]%elem_of_cons.
      * exists d. split; [done|]. by rewrite (Hframe _ Hnin), lookup_insert_eq.
      * destruct (Hdel q Hq) as (d' & Hd' & Hh').
        rewrite lookup_insert_ne in Hd' by (by intros ->).
        by exists d'.
    + intros q [Hne Hq]%not_elem_of_cons.
      rewrite (Hframe q Hq). by apply lookup_insert_ne.
Qed.

(** C10 (amended).  [removeWordIDs] is not atomic: when the tokens at
    positions [0 .. k-1] are pairwise distinct objects carrying a wordID
    and the token at position [k > 0] has none, the call fails with a key
    error and leaves a store in which each of the tokens at positions
    [0 .. k-1] has lost its wordID (and nothing else), every other object is
    as it was, and the store differs from the initial one. *)
Theorem removeWordIDs_not_atomic h (jsonSent : list nat) k o :
  0 < k →
  NoDup (take k jsonSent) →
  (∀ i p, i < k → jsonSent !! i = Some p → is_Some (field_of h "wordID" p)) →
  jsonSent !! k = Some o →
  lacks h "wordID" o →
  ∃ h', removeWordIDs jsonSent h = (Raise KeyError, h') ∧
        (∀ i p, i < k → jsonSent !! i = Some p →
                lacks h' "wordID" p ∧
                ∃ d, h !! p = Some d ∧ h' !! p = Some (delete "wordID" d)) ∧
        (∀ p, p ∉ take k jsonSent → h' !! p = h !! p) ∧
        h' ≠ h.
Proof.
  intros Hk Hnd Hpre Hko Ho.
  destruct (removeWordIDs_loop_partial (take k jsonSent)
              (drop (S k) jsonSent) o 0 h Hnd) as (h' & Hrun & Hdel & Hframe).
  { apply Forall_forall. intros p [i Hi]%list_elem_of_lookup.
    apply lookup_take_Some in Hi as [Hi Hlt]. by eapply Hpre. }
  { done. }
  rewrite take_drop_middle in Hrun by done.
  assert (∀ i p, i < k → jsonSent !! i = Some p →
            lacks h' "wordID" p ∧
            ∃ d, h !! p = Some d ∧ h' !! p = Some (delete "wordID" d)) as Hpost.
  { intros i p Hlt Hi.
    destruct (Hdel p) as (d & Hd & Hh').
    { eapply list_elem_of_lookup_2. apply lookup_take_Some. eauto. }
    split; [|by exists d]. exists (delete "wordID" d).
    split; [done|]. apply lookup_delete_eq. }
  exists h'. unfold removeWordIDs, enumerate.
  split; [by rewrite (M_bind_Raise _ _ _ _ _ Hrun)|].
  split; [done|]. split; [done|].
  intros ->. destruct (lookup_lt_is_Some_2 jsonSent 0) as [p Hp].
  { apply lookup_lt_Some in Hko. lia. }
  destruct (Hpost 0 p Hk Hp) as [(d & Hd & Hnone) _].
  destruct (Hpre 0 p Hk Hp) as [v (d' & Hd' & Hsome)%field_of_Some].
  congruence.
Qed.

(** ** Grouping by a key *)

Section grouping.
Context `{EqDecision K} {A : Type} (key : A → K).
Implicit Types (l : list A) (ks : list K).

Lemma elem_of_first_occurrences (x : K) ks :
  x ∈ first_occurrences ks ↔ x ∈ ks.
Proof.
  induction ks as [|y ks IH]; [done|]. simpl.
  rewrite !elem_of_cons, list_elem_of_filter, IH.
  destruct (decide (x = y)) as [->|Hne].
  - split; intros _; by left.
  - split; [intros [?|[_ ?]] | intros [?|?]]; first [done | by right].
Qed.

Lemma NoDup_first_occurrences ks : NoDup (first_occurrences ks).
Proof.
  induction ks as [|y ks IH]; simpl; constructor.
  - by intros [? _]%list_elem_of_filter.
  - by apply NoDup_filter.
Qed.

Lemma first_occurrences_snoc ks x :
  first_occurrences (ks ++ [x]) =
  if decide (x ∈ ks) then first_occurrences ks else first_occurrences ks ++ [x].
Proof.
  induction ks as [|y ks IH]; simpl; [done|].
  rewrite IH. destruct (decide (x ∈ ks)) as [Hin|Hnin].
  - by rewrite decide_True by (by right).
  - rewrite filter_app. destruct (decide (x = y)) as [->|Hne].
    + rewrite decide_True by (by left).
      by rewrite filter_cons_False, app_nil_r by (by intros ?).
    + rewrite decide_False by (by intros [?|?]%elem_of_cons).
      by rewrite filter_cons_True by done.
Qed.

Lemma dict_get_fresh {V : Type} (d : list (K * V)) k :
  k ∉ d.*1 → dict_get d k = None.
Proof.
  induction d as [|[k' v'] d IH]; [done|]. simpl.
  intros [Hne Hnin]%not_elem_of_cons. by rewrite decide_False, IH.
Qed.

Lemma dict_set_fresh {V : Type} (d : list (K * V)) k v :
  k ∉ d.*1 → dict_set d k v = d ++ [(k, v)].
Proof.
  induction d as [|[k' v'] d IH]; [done|]. simpl.
  intros [Hne Hnin]%not_elem_of_cons. by rewrite decide_False, IH.
Qed.

Lemma dict_get_last {V : Type} (d : list (K * V)) k v :
  k ∉ d.*1 → dict_get (d ++ [(k, v)]) k = Some v.
Proof.
  induction d as [|[k' v'] d IH]; simpl.
  - by rewrite decide_True.
  - intros [Hne Hnin]%not_elem_of_cons. by rewrite decide_False, IH.
Qed.

Lemma dict_set_last {V : Type} (d : list (K * V)) k v v' :
  k ∉ d.*1 → dict_set (d ++ [(k, v)]) k v' = d ++ [(k, v')].
Proof.
  induction d as [|[k' w] d IH]; simpl.
  - by rewrite decide_True.
  - intros [Hne Hnin]%not_elem_of_cons. by rewrite decide_False, IH.
Qed.

Lemma dict_get_tabulate {V : Type} (F : K → V) ks k :
  k ∈ ks → dict_get ((λ c, (c, F c)) <$> ks) k = Some (F k).
Proof.
  induction ks as [|c ks IH]; [by intros ?%elem_of_nil|]. simpl.
  destruct (decide (c = k)) as [->|Hne]; [done|].
  intros [->|Hin]%elem_of_cons; [done|]. by apply IH.
Qed.

Lemma dict_set_tabulate {V : Type} (F : K → V) ks k v :
  NoDup ks → k ∈ ks →
  dict_set ((λ c, (c, F c)) <$> ks) k v
  = (λ c, (c, if decide (c = k) then v else F c)) <$> ks.
Proof.
  induction ks as [|c ks IH]; [by intros _ ?%elem_of_nil|].
  intros [Hnin Hnd]%NoDup_cons Hin. simpl.
  destruct (decide (c = k)) as [->|Hne].
  - f_equal. apply list_fmap_ext. intros i c Hc.
    rewrite decide_False; [done|].
    intros ->. by apply list_elem_of_lookup_2 in Hc.
  - f_equal. apply IH; [done|].
    by apply elem_of_cons in Hin as [->|Hin].
Qed.

Lemma clauses_append_groups_of l o :
  clauses_append (groups_of key l) (key o) o = groups_of key (l ++ [o]).
Proof.
  unfold groups_of, clauses_append.
  rewrite fmap_snoc, first_occurrences_snoc.
  pose proof (NoDup_first_occurrences (key <$> l)) as Hnd.
  destruct (decide (key o ∈ key <$> l)) as [Hin|Hnin].
  - apply elem_of_first_occurrences in Hin.
    rewrite !(dict_get_tabulate _ _ _ Hin). simpl.
    rewrite (dict_set_tabulate _ _ _ _ Hnd Hin).
    apply list_fmap_ext. intros i c _. f_equal.
    rewrite filter_app, filter_cons, filter_nil.
    destruct (decide (c = key o)) as [->|Hne].
    + by rewrite decide_True.
    + by rewrite decide_False, app_nil_r by done.
  - assert (key o ∉ first_occurrences (key <$> l)) as Hfresh
      by (by rewrite elem_of_first_occurrences).
    assert (key o ∉ ((λ c, (c, filter (λ o', key o' = c) l))
                       <$> first_occurrences (key <$> l)).*1) as Hkeys.
    { rewrite <-list_fmap_compose. by rewrite list_fmap_id. }
    rewrite (dict_get_fresh _ _ Hkeys), (dict_set_fresh _ _ _ Hkeys).
    rewrite (dict_get_last _ _ _ Hkeys), (dict_set_last _ _ _ _ Hkeys). simpl.
    rewrite fmap_app. simpl. f_equal.
    + apply list_fmap_ext. intros i c Hc. f_equal.
      rewrite filter_app, filter_cons_False, app_nil_r; [done|].
      intros Heq. apply Hfresh. rewrite Heq.
      by eapply list_elem_of_lookup_2.
    + do 2 f_equal. rewrite filter_app, filter_cons_True by done.
      rewrite filter_nil, filter_none; [done|].
      intros o' Ho' Heq. apply Hnin.
      rewrite <-Heq. by apply list_elem_of_fmap_2.
Qed.

Lemma foldl_clauses_append l :
  foldl (λ clauses o, clauses_append clauses (key o) o) [] l = groups_of key l.
Proof.
  induction l as [|o l IH] using rev_ind; [done|].
  by rewrite foldl_snoc, IH, clauses_append_groups_of.
Qed.

Lemma groups_of_keys l : (groups_of key l).*1 = first_occurrences (key <$> l).
Proof. unfold groups_of. by rewrite <-list_fmap_compose, list_fmap_id. Qed.

Lemma elem_of_groups_of l c g :
  (c, g) ∈ groups_of key l ↔ c ∈ key <$> l ∧ g = filter (λ o, key o = c) l.
Proof.
  unfold groups_of. rewrite list_elem_of_fmap.
  setoid_rewrite elem_of_first_occurrences. split.
  - by intros (c' & [= -> ->] & Hc').
  - intros [Hc ->]. by exists c.
Qed.

(** Adding an element to a list adds it to one group. *)
Lemma concat_groups_cons ks o l :
  NoDup ks → key o ∈ ks →
  concat ((λ c, filter (λ o', key o' = c) (o :: l)) <$> ks)
  ≡ₚ o :: concat ((λ c, filter (λ o', key o' = c) l) <$> ks).
Proof.
  induction ks as [|c ks IH]; [by intros _ ?%elem_of_nil|].
  intros [Hnin Hnd]%NoDup_cons Hin. simpl. rewrite filter_cons.
  destruct (decide (key o = c)) as [Heq|Hne].
  - simpl. apply Permutation_skip, Permutation_app_head.
    apply reflexive_eq.
    f_equal. apply list_fmap_ext. intros i c' Hc'.
    rewrite filter_cons_False; [done|].
    intros Heq'. apply Hnin. rewrite <-Heq, Heq'.
    by eapply list_elem_of_lookup_2.
  - rewrite IH; [|done|].
    + by rewrite Permutation_middle.
    + apply elem_of_cons in Hin as [?|?]; [by subst|done].
Qed.

Lemma concat_groups_perm ks l :
  NoDup ks → (∀ o, o ∈ l → key o ∈ ks) →
  concat ((λ c, filter (λ o, key o = c) l) <$> ks) ≡ₚ l.
Proof.
  intros Hnd. induction l as [|o l IH]; intros Hks.
  - clear. by induction ks.
  - rewrite concat_groups_cons; [|done|apply Hks; by left].
    f_equiv. apply IH. intros o' Ho'. apply Hks. by right.
Qed.

Lemma groups_of_perm l : concat (groups_of key l).*2 ≡ₚ l.
Proof.
  unfold groups_of. rewrite <-list_fmap_compose.
  apply (concat_groups_perm (first_occurrences (key <$> l)) l).
  - apply NoDup_first_occurrences.
  - intros o Ho. apply elem_of_first_occurrences. by apply list_elem_of_fmap_2.
Qed.

End grouping.

Lemma filter_fmap_inj `{EqDecision K, EqDecision K'} (f : K → K')
    `{!Inj (=) (=) f} (y : K) (ks : list K) :
  filter (λ z, z ≠ f y) (f <$> ks) = f <$> filter (λ z, z ≠ y) ks.
Proof.
  induction ks as [|x ks IH]; [done|].
  rewrite fmap_cons, !filter_cons, IH.
  destruct (decide (x = y)) as [->|Hne].
  - by rewrite !decide_False by (by intros ?).
  - rewrite !decide_True; [done..|]. by intros ?%(inj f).
Qed.

Lemma first_occurrences_fmap_inj `{EqDecision K, EqDecision K'} (f : K → K')
    `{!Inj (=) (=) f} (ks : list K) :
  first_occurrences (f <$> ks) = f <$> first_occurrences ks.
Proof.
  induction ks as [|x ks IH]; [done|].
  rewrite fmap_cons. cbn [first_occurrences].
  by rewrite IH, filter_fmap_inj, fmap_cons.
Qed.

Lemma foldl_enumerate_from_snd {A S : Type} (g : S → A → S) k (l : list A) acc :
  foldl (λ acc (it : nat * A), g acc it.2) acc (enumerate_from k l)
  = foldl g acc l.
Proof.
  revert k acc. induction l as [|x l IH]; intros k acc; [done|].
  rewrite enumerate_from_cons. simpl. apply IH.
Qed.

(** ** getClausesByClauseIDs *)

(** C9.  Clause grouping is a partition.  On a sentence in which every token
    carries a hashable clauseID, [getClausesByClauseIDs] returns a dict and
    leaves the store as it was.  The keys of the dict are the clauseIDs of
    the sentence in the order of their first occurrence, without repeats;
    the group under a key lists the tokens with that clauseID in sentence
    order; every token of the sentence is in the group keyed by its own
    clauseID and in no other group; and the groups, concatenated, are a
    permutation of the sentence. *)
Theorem getClausesByClauseIDs_partition h (jsonSent : list nat) :
  Forall (λ o, ∃ c, field_of h "clauseID" o = Some c ∧ hashable c = true)
         jsonSent →
  ∃ clauses,
    getClausesByClauseIDs jsonSent h = (Ok clauses, h) ∧
    Some <$> clauses.*1
      = first_occurrences (field_of h "clauseID" <$> jsonSent) ∧
    NoDup clauses.*1 ∧
    (∀ c g, (c, g) ∈ clauses →
            g = filter (λ o, field_of h "clauseID" o = Some c) jsonSent) ∧
    (∀ o, o ∈ jsonSent →
          ∃ c g, field_of h "clauseID" o = Some c ∧ (c, g) ∈ clauses ∧ o ∈ g ∧
                 ∀ c' g', (c', g') ∈ clauses → o ∈ g' → c' = c ∧ g' = g) ∧
    concat clauses.*2 ≡ₚ jsonSent.
Proof.
  intros Hall.
  set (key := λ o, default (VInt 0) (field_of h "clauseID" o)).
  assert (∀ o, o ∈ jsonSent →
            field_of h "clauseID" o = Some (key o) ∧ hashable (key o) = true)
    as Hkey.
  { intros o Ho. eapply Forall_forall in Hall as (c & Hc & Hhash); [|done].
    unfold key. by rewrite Hc. }
  exists (groups_of key jsonSent). split; [|split; [|split; [|split; [|split]]]].
  - unfold getClausesByClauseIDs.
    erewrite (M_bind_Ok _ _ h tt h); cycle 1.
    { rewrite (for_each_M_pure _ (λ _ _, tt)).
      - by destruct (foldl _ _ _).
      - intros [] o Ho. destruct (Hkey o Ho) as [Hc _].
        by rewrite (M_bind_Ok _ _ _ _ _ (contains_carries _ _ _ _ Hc)). }
    erewrite (M_bind_Ok _ _ h _ h); cycle 1.
    { apply (mapM_M_pure _ key). intros o Ho. destruct (Hkey o Ho) as [Hc _].
      by apply getitem_carries. }
    rewrite (for_each_M_pure _
      (λ clauses it, clauses_append clauses (key it.2) it.2)).
    + unfold enumerate.
      rewrite (foldl_enumerate_from_snd
                 (λ clauses o, clauses_append clauses (key o) o)).
      by rewrite foldl_clauses_append.
    + intros clauses [i o] Hin.
      apply elem_of_enumerate, list_elem_of_lookup_2 in Hin.
      destruct (Hkey o Hin) as [Hc Hhash]. simpl.
      rewrite (M_bind_Ok _ _ _ _ _ (getitem_carries _ _ _ _ Hc)).
      by rewrite Hhash.
  - rewrite groups_of_keys, <-first_occurrences_fmap_inj by apply _.
    f_equal. rewrite <-list_fmap_compose.
    apply list_fmap_ext. intros i o Ho. simpl.
    apply list_elem_of_lookup_2 in Ho. symmetry. by apply Hkey.
  - rewrite groups_of_keys. apply NoDup_first_occurrences.
  - intros c g [_ ->]%elem_of_groups_of.
    apply filter_ext_in. intros o Ho. destruct (Hkey o Ho) as [Hc _].
    rewrite Hc. split; [by intros -> | by intros [= ->]].
  - intros o Ho. destruct (Hkey o Ho) as [Hc _].
    exists (key o), (filter (λ o', key o' = key o) jsonSent).
    split; [done|]. split; [|split].
    + apply elem_of_groups_of. split; [by apply list_elem_of_fmap_2|done].
    + by apply list_elem_of_filter.
    + intros c' g' [_ ->]%elem_of_groups_of [Heq _]%list_elem_of_filter.
      by subst.
  - apply groups_of_perm.
Qed.

(** ** The indexing and grouping laws on the example stores *)

(** A property of every token of a literal sentence, token by token. *)
Ltac each_token tac :=
  repeat (apply Forall_cons; split; [tac|]); by apply Forall_nil.

Lemma addWordIDs_fresh_idempotent_witness :
  ∃ h', addWordIDs [0; 1; 2] store_fresh = (Ok [0; 1; 2], h') ∧
        (∀ i o, [0; 1; 2] !! i = Some o →
                field_of h' "wordID" o = Some (VInt (Z.of_nat i))) ∧
        (∀ i o, [0; 1; 2] !! i = Some o →
                ∃ d, store_fresh !! o = Some d ∧
                     h' !! o = Some (<["wordID" := VInt (Z.of_nat i)]> d)) ∧
        (∀ o, o ∉ [0; 1; 2] → h' !! o = store_fresh !! o) ∧
        addWordIDs [0; 1; 2] h' = (Ok [0; 1; 2], h').
Proof.
  apply (addWordIDs_fresh_idempotent store_fresh [0; 1; 2]).
  - apply (bool_decide_unpack _). by vm_compute.
  - each_token ltac:(eexists; split; reflexivity).
Defined.

(** The indexer law as the claim has it fails on a sentence that holds one
    token object twice, [t = {...}; s = [t, t]]: no token carries a wordID,
    and the loop, having set [t['wordID'] = 0] at position 0, finds at
    position 1 a wordID that is not 1. *)
Lemma addWordIDs_aliased_counterexample :
  Forall (lacks store_fresh "wordID") [0; 0] ∧
  (addWordIDs [0; 0] store_fresh).1 = Raise AssertionError.
Proof.
  split.
  - each_token ltac:(eexists; split; reflexivity).
  - by vm_compute.
Qed.

Lemma getWordIDrange_spec_witness :
  (∀ a b, getWordIDrange a b [0; 1; 2] store_indexed
          = (Ok (filter (wordID_in a b store_indexed) [0; 1; 2]), store_indexed)) ∧
  (∀ k, getWordIDrange k k [0; 1; 2] store_indexed = (Ok [], store_indexed)) ∧
  ((∀ i o, [0; 1; 2] !! i = Some o →
           field_of store_indexed "wordID" o = Some (VInt (Z.of_nat i))) →
   getWordIDrange 0 (Z.of_nat (length [0; 1; 2])) [0; 1; 2] store_indexed
   = (Ok [0; 1; 2], store_indexed)).
Proof.
  apply (getWordIDrange_spec store_indexed [0; 1; 2]).
  each_token ltac:(eexists; reflexivity).
Defined.

Example getWordIDrange_examples :
  getWordIDrange 1 3 [0; 1; 2] store_indexed = (Ok [1; 2], store_indexed) ∧
  getWordIDrange 0 3 [0; 1; 2] store_indexed = (Ok [0; 1; 2], store_indexed) ∧
  (getWordIDrange 0 3 [0; 1; 2] store_partial).1 = Raise AssertionError.
Proof. repeat split; by vm_compute. Qed.

Lemma getClausesByClauseIDs_partition_witness :
  ∃ clauses,
    getClausesByClauseIDs [0; 1; 2] store_fresh = (Ok clauses, store_fresh) ∧
    Some <$> clauses.*1
      = first_occurrences (field_of store_fresh "clauseID" <$> [0; 1; 2]) ∧
    NoDup clauses.*1 ∧
    (∀ c g, (c, g) ∈ clauses →
            g = filter (λ o, field_of store_fresh "clauseID" o = Some c)
                       [0; 1; 2]) ∧
    (∀ o, o ∈ [0; 1; 2] →
          ∃ c g, field_of store_fresh "clauseID" o = Some c ∧
                 (c, g) ∈ clauses ∧ o ∈ g ∧
                 ∀ c' g', (c', g') ∈ clauses → o ∈ g' → c' = c ∧ g' = g) ∧
    concat clauses.*2 ≡ₚ [0; 1; 2].
Proof.
  apply (getClausesByClauseIDs_partition store_fresh [0; 1; 2]).
  each_token ltac:(eexists; split; reflexivity).
Defined.

Example getClausesByClauseIDs_example :
  getClausesByClauseIDs [0; 1; 2] store_fresh
  = (Ok [(VInt 7, [0; 2]); (VInt 4, [1])], store_fresh).
Proof. by vm_compute. Qed.

Lemma removeWordIDs_not_atomic_witness :
  ∃ h', removeWordIDs [0; 1; 2] store_partial = (Raise KeyError, h') ∧
        (∀ i p, i < 2 → [0; 1; 2] !! i = Some p →
                lacks h' "wordID" p ∧
                ∃ d, store_partial !! p = Some d ∧
                     h' !! p = Some (delete "wordID" d)) ∧
        (∀ p, p ∉ take 2 [0; 1; 2] → h' !! p = store_partial !! p) ∧
        h' ≠ store_partial.
Proof.
  apply (removeWordIDs_not_atomic store_partial [0; 1; 2] 2 2).
  - lia.
  - apply (bool_decide_unpack _). by vm_compute.
  - intros [|[|i]] p Hlt Hi; [| |lia]; injection Hi as <-; by eexists.
  - reflexivity.
  - eexists. split; reflexivity.
Defined.

(** The non-atomicity claim as stated fails on a sentence that holds one
    token object twice: in [sentence_aliased] the first token without a
    wordID is at position 3, the call fails at position 1 already (the
    wordID of that object went at position 0), and the token at position 2
    still has its wordID. *)
Lemma removeWordIDs_aliased_counterexample :
  (∀ i p, i < 3 → sentence_aliased !! i = Some p →
          is_Some (field_of store_partial "wordID" p)) ∧
  sentence_aliased !! 3 = Some 2 ∧
  lacks store_partial "wordID" 2 ∧
  (removeWordIDs sentence_aliased store_partial).1 = Raise KeyError ∧
  sentence_aliased !! 2 = Some 1 ∧
  field_of (removeWordIDs sentence_aliased store_partial).2 "wordID" 1
    = Some (VInt 2).
Proof.
  split; [|split; [|split; [|split; [|split]]]].
  - intros [|[|[|i]]] p Hlt Hi; [| | |lia]; injection Hi as <-; by eexists.
  - reflexivity.
  - eexists. split; reflexivity.
  - by vm_compute.
  - reflexivity.
  - by vm_compute.
Qed.

(** * Further properties *)

(** ** The rule registry *)

Section dict_lemmas.
Context `{EqDecision K} {V : Type}.
Implicit Types (d : list (K * V)).

Lemma dict_get_set_eq d k v : dict_get (dict_set d k v) k = Some v.
Proof.
  induction d as [|[k' v'] d IH]; simpl.
  - by rewrite decide_True.
  - destruct (decide (k' = k)) as [->|Hne]; simpl.
    + by rewrite decide_True.
    + by rewrite decide_False.
Qed.

Lemma dict_get_set_ne d k k' v :
  k ≠ k' → dict_get (dict_set d k v) k' = dict_get d k'.
Proof.
  intros Hne. induction d as [|[k0 v0] d IH]; simpl.
  - by rewrite decide_False.
  - destruct (decide (k0 = k)) as [->|Hne0]; simpl.
    + by rewrite !decide_False.
    + by rewrite IH.
Qed.

Lemma dict_set_keys d k v :
  (dict_set d k v).*1 = if decide (k ∈ d.*1) then d.*1 else d.*1 ++ [k].
Proof.
  induction d as [|[k' v'] d IH]; [done|].
  cbn [dict_set]. rewrite fmap_cons. cbn [fst].
  destruct (decide (k' = k)) as [->|Hne]; rewrite fmap_cons; cbn [fst].
  - by rewrite decide_True by (by left).
  - rewrite IH. destruct (decide (k ∈ d.*1)) as [Hin|Hnin].
    + by rewrite decide_True by (by right).
    + by rewrite decide_False by (by intros [?|?]%elem_of_cons).
Qed.

Lemma dict_set_keys_NoDup d k v : NoDup d.*1 → NoDup (dict_set d k v).*1.
Proof.
  intros Hnd. rewrite dict_set_keys. case_decide; [done|].
  apply NoDup_app. split; [done|]. split; [|apply NoDup_singleton].
  intros k' Hk' ->%list_elem_of_singleton. done.
Qed.

Lemma dict_set_keys_Forall (P : K → Prop) d k v :
  P k → Forall P d.*1 → Forall P (dict_set d k v).*1.
Proof.
  intros Hk Hd. rewrite dict_set_keys. case_decide; [done|].
  apply Forall_app. split; [done|]. by apply Forall_singleton.
Qed.

End dict_lemmas.

Section registry_properties.

Context {Pattern : Type}.
Variable re_compile : string → option Pattern.

Implicit Types (self : WordTemplate Pattern).

(** X1.  Invariant of the rule registry: in every template built by the
    constructor and [addRule], a rule dict that exists is not empty, holds
    each field once, and holds only fields of its own kind: the analysis
    fields in [analysisRules], all other fields in [otherRules]. *)
Theorem reachable_invariant self :
  reachable re_compile self →
  (∀ rules, analysisRules self = Some rules →
            rules ≠ [] ∧ NoDup rules.*1 ∧
            Forall (λ field, field ∈ analysisFields) rules.*1) ∧
  (∀ rules, otherRules self = Some rules →
            rules ≠ [] ∧ NoDup rules.*1 ∧
            Forall (λ field, field ∉ analysisFields) rules.*1).
Proof.
  induction 1 as [|self field pat self' _ [IHa IHo] Hadd]; [done|].
  unfold addRule in Hadd. destruct (re_compile pat) as [compiled|]; [|done].
  case_bool_decide as Hfield; injection Hadd as <-; simpl; split; try done.
  - intros rules [= <-]. split; [apply dict_set_not_nil|].
    destruct (analysisRules self) as [rules|]; simpl.
    + destruct (IHa rules eq_refl) as (_ & Hnd & Hall).
      split; [by apply dict_set_keys_NoDup|by apply dict_set_keys_Forall].
    + split; [apply NoDup_singleton|by apply Forall_singleton].
  - intros rules [= <-]. split; [apply dict_set_not_nil|].
    destruct (otherRules self) as [rules|]; simpl.
    + destruct (IHo rules eq_refl) as (_ & Hnd & Hall).
      split; [by apply dict_set_keys_NoDup|by apply dict_set_keys_Forall].
    + split; [apply NoDup_singleton|by apply Forall_singleton].
Qed.

(** X2.  [addRule] is last-write-wins: when it returns, the pattern
    compiled, the rule registered for the field is the compiled pattern
    (whatever was registered before), and the rule registered for any other
    field is what it was. *)
Theorem addRule_get_rule self field regExpPattern self' :
  addRule re_compile self field regExpPattern = Ok self' →
  ∃ compiled,
    re_compile regExpPattern = Some compiled ∧
    get_rule self' field = Some compiled ∧
    ∀ field', field' ≠ field → get_rule self' field' = get_rule self field'.
Proof.
  unfold addRule. destruct (re_compile regExpPattern) as [compiled|]; [|done].
  intros Hadd. exists compiled. split; [done|].
  unfold get_rule. case_bool_decide as Hfield; injection Hadd as <-; simpl.
  - split; [apply dict_get_set_eq|].
    intros field' Hne. case_bool_decide; [|done].
    by apply dict_get_set_ne.
  - split; [apply dict_get_set_eq|].
    intros field' Hne. case_bool_decide; [done|].
    by apply dict_get_set_ne.
Qed.

Lemma addRule_Raise self field regExpPattern e :
  addRule re_compile self field regExpPattern = Raise e →
  e = ReError ∧ re_compile regExpPattern = None.
Proof.
  unfold addRule. destruct (re_compile regExpPattern); [|by intros [= <-]].
  by case_bool_decide.
Qed.

Lemma addRule_Ok self field regExpPattern :
  is_Some (re_compile regExpPattern) →
  ∃ self', addRule re_compile self field regExpPattern = Ok self'.
Proof.
  intros [compiled Hc]. unfold addRule. rewrite Hc.
  case_bool_decide; by eexists.
Qed.

(** The constructor loop from any template. *)
Lemma for_each_addRule_spec (newRules : list (string * string)) self :
  (Forall (λ rule, is_Some (re_compile rule.2)) newRules →
   ∃ self', for_each (λ self rule, addRule re_compile self rule.1 rule.2)
                     self newRules = Ok self' ∧
            (NoDup newRules.*1 →
             ∀ rule, rule ∈ newRules →
                     get_rule self' rule.1 = re_compile rule.2) ∧
            (∀ field, field ∉ newRules.*1 →
                      get_rule self' field = get_rule self field)) ∧
  (Exists (λ rule, re_compile rule.2 = None) newRules →
   for_each (λ self rule, addRule re_compile self rule.1 rule.2)
            self newRules = Raise ReError).
Proof.
  revert self. induction newRules as [|[field pat] newRules IH]; intros self.
  - split; [|by intros ?%Exists_nil]. intros _. exists self.
    split; [done|]. split; [by intros _ ? ?%elem_of_nil|done].
  - split.
    + intros [Hc Hall]%Forall_cons. simpl in Hc.
      destruct (addRule_Ok self field pat Hc) as [self1 Hadd].
      destruct (addRule_get_rule _ _ _ _ Hadd) as (compiled & Hcomp & Hget & Hframe).
      destruct (IH self1) as [IHok _].
      destruct (IHok Hall) as (self' & Hrun & Hrules & Hrest).
      exists self'. simpl. rewrite Hadd. simpl. split; [done|]. split.
      * intros [Hnin Hnd]%NoDup_cons rule [->|Hin]%elem_of_cons; simpl.
        -- by rewrite (Hrest field Hnin), Hget, Hcomp.
        -- by apply Hrules.
      * intros field' [Hne Hnin]%not_elem_of_cons.
        rewrite (Hrest field' Hnin). by apply Hframe.
    + intros Hex. simpl.
      destruct (addRule re_compile self field pat) as [self1|e] eqn:Hadd; simpl.
      * apply Exists_cons in Hex as [Hnone|Hex].
        -- destruct (addRule_get_rule _ _ _ _ Hadd) as (? & Hcomp & _).
           simpl in Hnone. congruence.
        -- by apply IH.
      * by apply addRule_Raise in Hadd as [-> _].
Qed.

(** X3.  The constructor: [WordTemplate(newRules)] raises the pattern error
    exactly when some pattern of [newRules] does not compile; otherwise it
    returns a template in which, the fields of [newRules] being distinct,
    each field has its own compiled pattern registered, and no other field
    has a rule. *)
Theorem WordTemplate_init_spec (newRules : list (string * string)) :
  (Exists (λ rule, re_compile rule.2 = None) newRules →
   WordTemplate_init re_compile newRules = Raise ReError) ∧
  (Forall (λ rule, is_Some (re_compile rule.2)) newRules →
   ∃ self, WordTemplate_init re_compile newRules = Ok self ∧
           (NoDup newRules.*1 →
            ∀ rule, rule ∈ newRules →
                    get_rule self rule.1 = re_compile rule.2) ∧
           (∀ field, field ∉ newRules.*1 → get_rule self field = None)).
Proof.
  unfold WordTemplate_init.
  destruct (for_each_addRule_spec newRules
              {| analysisRules := None; otherRules := None |}) as [Hok Herr].
  split; [done|]. intros Hall.
  destruct (Hok Hall) as (self & Hrun & Hrules & Hrest).
  exists self. split; [done|]. split; [done|].
  intros field Hnin. rewrite (Hrest field Hnin).
  unfold get_rule. by case_bool_decide.
Qed.

End registry_properties.

Lemma reachable_invariant_witness :
  (∀ rules, analysisRules template_S_ol = Some rules →
            rules ≠ [] ∧ NoDup rules.*1 ∧
            Forall (λ field, field ∈ analysisFields) rules.*1) ∧
  (∀ rules, otherRules template_S_ol = Some rules →
            rules ≠ [] ∧ NoDup rules.*1 ∧
            Forall (λ field, field ∉ analysisFields) rules.*1).
Proof.
  apply (reachable_invariant lit_compile template_S_ol).
  by apply (WordTemplate_init_reachable lit_compile
              [("partofspeech", "S"); ("text", "ol")]).
Defined.

Lemma addRule_get_rule_witness :
  ∃ compiled,
    lit_compile "V" = Some compiled ∧
    get_rule {| analysisRules := Some [("partofspeech", "V")];
                otherRules := Some [("text", "abc")] |} "partofspeech"
      = Some compiled ∧
    ∀ field', field' ≠ "partofspeech" →
              get_rule {| analysisRules := Some [("partofspeech", "V")];
                          otherRules := Some [("text", "abc")] |} field'
              = get_rule template_S_abc field'.
Proof.
  apply (addRule_get_rule lit_compile template_S_abc "partofspeech" "V").
  reflexivity.
Defined.

(** ** WordTemplate: the analyses that match *)


Section analyses_properties.

Context {Pattern : Type}.
Variable re_compile : string → option Pattern.
Variable re_match : Pattern → string → bool.

Implicit Types (self : WordTemplate Pattern) (tokenJson : gmap string value).
Implicit Types (rules : list (string * Pattern)).

Lemma rule_matches_all_dict rules a :
  rule_matches_all re_match rules (EDict a)
  = Ok ((λ rule, re_match rule.2 (default "" (a !! rule.1))) <$> rules).
Proof. unfold rule_matches_all. by apply mapM_Ok_fmap. Qed.

Lemma all_fmap {X : Type} (f : X → bool) (l : list X) :
  all (f <$> l) = forallb f l.
Proof. induction l as [|x l IH]; [done|]. simpl. by rewrite <-IH. Qed.

(** The loop of [matchingAnalyses] over a list of analysis dicts keeps the
    analyses that satisfy the rules. *)
Lemma matchingAnalyses_loop rules (l : list (gmap string string)) acc :
  rules ≠ [] →
  for_each (λ matchingResults analysis,
              ms ← rule_matches_all re_match rules analysis;
              if negb (bool_decide (ms = [])) && all ms
              then Ok (matchingResults ++ [analysis])
              else Ok matchingResults)
           acc (EDict <$> l)
  = Ok (acc ++ (EDict <$> filter (analysis_satisfies re_match rules) l)).
Proof.
  intros Hne. revert acc. induction l as [|a l IH]; intros acc.
  - simpl. by rewrite app_nil_r.
  - rewrite fmap_cons. cbn [for_each]. rewrite rule_matches_all_dict.
    cbn [mbind result_bind]. rewrite all_fmap.
    rewrite bool_decide_eq_false_2 by (by intros ?%fmap_nil_inv).
    rewrite filter_cons. simpl negb. rewrite andb_true_l.
    destruct (forallb _ rules) eqn:Hsat.
    + rewrite decide_True by (by apply forallb_analysis_satisfies).
      cbn [mbind result_bind]. rewrite IH, fmap_cons. by rewrite <-app_assoc.
    + cbn [mbind result_bind].
      rewrite decide_False; [by rewrite IH|].
      rewrite <-forallb_analysis_satisfies. congruence.
Qed.

(** What the token-scoped rules give when every addressed field is absent
    or a string: a boolean per rule, all [True] exactly when all pass. *)
Lemma otherMatches_on_string tokenJson rules :
  Forall (rule_on_string tokenJson) rules →
  ∃ ms, mapM (other_match re_match tokenJson) rules = Ok ms ∧
        length ms = length rules ∧
        (all ms = true ↔ Forall (rule_passes re_match tokenJson) rules).
Proof.
  induction rules as [|rule rules IH].
  - intros _. exists []. by split; [|split].
  - intros [Hrule Hall]%Forall_cons.
    destruct (IH Hall) as (ms & Hms & Hlen & Hiff).
    rewrite mapM_result_cons, Hms. unfold other_match at 1.
    destruct Hrule as [Hnone|[s Hs]].
    + rewrite Hnone. exists (false :: ms). simpl.
      split; [done|]. split; [by rewrite Hlen|].
      rewrite Forall_cons. split; [done|].
      intros [(s & ? & _) _]. congruence.
    + rewrite Hs. exists (re_match rule.2 s :: ms). simpl.
      split; [done|]. split; [by rewrite Hlen|].
      rewrite Forall_cons, <-Hiff. unfold all, rule_passes. simpl.
      rewrite andb_true_iff. unfold id at 1.
      split.
      * intros [Hm Hrest]. split; [by exists s|done].
      * intros [(s' & Hs' & Hm) Hrest]. rewrite Hs in Hs'.
        injection Hs' as <-. done.
Qed.

(** X4.  [matchingAnalyses] is a filter: for a template built by the
    constructor and [addRule] that has analysis-scoped rules and whose
    token-scoped rules, if any, all pass, on a token carrying a list of
    analyses it returns the analyses that satisfy every analysis-scoped
    rule, in their order and with their repetitions. *)
Theorem matchingAnalyses_filter self tokenJson arules
    (l : list (gmap string string)) :
  reachable re_compile self →
  analysisRules self = Some arules →
  (∀ orules, otherRules self = Some orules →
             Forall (rule_passes re_match tokenJson) orules) →
  tokenJson !! "analysis" = Some (VList l) →
  matchingAnalyses re_match self tokenJson
  = Ok (EDict <$> filter (analysis_satisfies re_match arules) l).
Proof.
  intros Hreach Ha Ho Hl.
  apply reachable_not_nil in Hreach as [Hna Hno].
  assert (arules ≠ []) as Hne by (intros ->; done).
  unfold matchingAnalyses. rewrite Ha.
  destruct (otherRules self) as [orules|] eqn:Eo; simpl.
  - rewrite (otherMatches_pass _ _ _ (Ho _ eq_refl)). simpl.
    rewrite all_const_true. case_bool_decide as Hnil; simpl.
    { apply fmap_nil_inv in Hnil. by subst. }
    rewrite Hl. simpl. by rewrite (matchingAnalyses_loop arules l [] Hne).
  - rewrite Hl. simpl. by rewrite (matchingAnalyses_loop arules l [] Hne).
Qed.

(** X5.  The boolean and the list agree: for a template built by the
    constructor and [addRule] that has analysis-scoped rules, on a token
    carrying a list of analyses and holding strings in the fields the
    token-scoped rules address, both queries return, and [matches] is
    [True] exactly when [matchingAnalyses] is not empty. *)
Theorem matches_iff_matchingAnalyses self tokenJson arules
    (l : list (gmap string string)) :
  reachable re_compile self →
  analysisRules self = Some arules →
  (∀ orules, otherRules self = Some orules →
             Forall (rule_on_string tokenJson) orules) →
  tokenJson !! "analysis" = Some (VList l) →
  ∃ b matchingResults,
    matches re_match self tokenJson = Ok b ∧
    matchingAnalyses re_match self tokenJson = Ok matchingResults ∧
    (b = true ↔ matchingResults ≠ []).
Proof.
  intros Hreach Ha Ho Hl.
  apply reachable_not_nil in Hreach as [Hna Hno].
  assert (arules ≠ []) as Hne by (intros ->; done).
  assert (any ((λ a, forallb
            (λ rule, re_match rule.2 (default "" (a !! rule.1))) arules) <$> l)
          = true ↔
          EDict <$> filter (analysis_satisfies re_match arules) l ≠ [])
    as Hagree.
  { rewrite any_true_iff, list_elem_of_fmap. split.
    - intros (a & Hsat & Hin) Hnil. apply fmap_nil_inv in Hnil.
      assert (a ∈ filter (analysis_satisfies re_match arules) l) as Ha'.
      { apply list_elem_of_filter. split; [|done].
        by apply forallb_analysis_satisfies. }
      rewrite Hnil in Ha'. by apply elem_of_nil in Ha'.
    - intros Hnil.
      destruct (filter (analysis_satisfies re_match arules) l) as [|a l'] eqn:Hf;
        [done|].
      assert (a ∈ filter (analysis_satisfies re_match arules) l) as Ha'
        by (rewrite Hf; by left).
      apply list_elem_of_filter in Ha' as [Hsat Hin]. exists a.
      split; [|done]. symmetry. by apply forallb_analysis_satisfies. }
  unfold matches, matchingAnalyses. rewrite Ha.
  destruct (otherRules self) as [orules|] eqn:Eo; simpl.
  - destruct (otherMatches_on_string tokenJson orules (Ho _ eq_refl))
      as (ms & Hms & Hlen & _).
    rewrite Hms. simpl.
    rewrite bool_decide_eq_false_2; cycle 1.
    { intros ->. destruct orules; [done|by simpl in Hlen]. }
    simpl. destruct (all ms); simpl.
    + rewrite Hl. simpl. rewrite totalMatches_dicts. simpl.
      rewrite (matchingAnalyses_loop arules l [] Hne). simpl.
      by eexists _, _.
    + exists false, []. by split; [|split].
  - rewrite Hl. simpl. rewrite totalMatches_dicts. simpl.
    rewrite (matchingAnalyses_loop arules l [] Hne). simpl.
    by eexists _, _.
Qed.

(** X6.  The token-scoped gate of [matchingAnalyses]: when the fields the
    token-scoped rules address are absent or strings and some token-scoped
    rule fails, [matchingAnalyses] returns the empty list, whatever the
    analysis-scoped rules are and whether or not the token has analyses. *)
Theorem matchingAnalyses_token_gate self tokenJson orules :
  otherRules self = Some orules →
  Forall (rule_on_string tokenJson) orules →
  Exists (rule_fails re_match tokenJson) orules →
  matchingAnalyses re_match self tokenJson = Ok [].
Proof.
  intros Ho Hstr Hfail. unfold matchingAnalyses. rewrite Ho.
  destruct (otherMatches_on_string tokenJson orules Hstr)
    as (ms & Hms & _ & Hiff).
  rewrite Hms. simpl.
  assert (all ms = false) as ->.
  { apply not_true_is_false. rewrite Hiff. intros Hpass.
    apply Exists_exists in Hfail as (rule & Hin & Hrule).
    eapply Forall_forall in Hpass as (s & Hs & Hm); [|done].
    destruct Hrule as [Hnone|(s' & Hs' & Hm')]; congruence. }
  by rewrite orb_true_r.
Qed.




End analyses_properties.

Lemma matchingAnalyses_filter_witness :
  matchingAnalyses lit_match template_S_ol token_oli
  = Ok (EDict <$> filter (analysis_satisfies lit_match [("partofspeech", "S")])
                         analyses_oli).
Proof.
  apply (matchingAnalyses_filter lit_compile lit_match template_S_ol token_oli).
  - by apply (WordTemplate_init_reachable lit_compile
                [("partofspeech", "S"); ("text", "ol")]).
  - reflexivity.
  - intros orules [= <-]. repeat constructor.
    exists "oli". split; reflexivity.
  - reflexivity.
Defined.

Lemma matches_iff_matchingAnalyses_witness :
  ∃ b matchingResults,
    matches lit_match template_S_abc token_oli = Ok b ∧
    matchingAnalyses lit_match template_S_abc token_oli = Ok matchingResults ∧
    (b = true ↔ matchingResults ≠ []).
Proof.
  apply (matches_iff_matchingAnalyses lit_compile lit_match template_S_abc
           token_oli [("partofspeech", "S")] analyses_oli).
  - by apply (WordTemplate_init_reachable lit_compile
                [("partofspeech", "S"); ("text", "abc")]).
  - reflexivity.
  - intros orules [= <-]. apply Forall_cons. split; [|constructor].
    right. by exists "oli".
  - reflexivity.
Defined.

Lemma matchingAnalyses_token_gate_witness :
  matchingAnalyses lit_match template_S_abc token_plain = Ok [].
Proof.
  apply (matchingAnalyses_token_gate lit_match template_S_abc token_plain
           [("text", "abc")]).
  - reflexivity.
  - apply Forall_cons. split; [|constructor]. right. by exists "oli".
  - apply Exists_cons_hd. right. exists "oli". split; reflexivity.
Defined.

(** An analysis that occurs twice is reported at its first position both
    times. *)
Example matchingAnalyseIndexes_duplicates :
  matchingAnalyseIndexes lit_match template_S_ol
    {[ "text" := VStr "oli";
       "analysis" := VList [ {[ "partofspeech" := "S" ]};
                             {[ "partofspeech" := "V" ]};
                             {[ "partofspeech" := "S" ]} ] ]}
  = IndexOk [0; 0].
Proof. by vm_compute. Qed.

(** ** WordTemplate: composing the sequence queries *)

Lemma enumerate_from_app {A : Type} k (l1 l2 : list A) :
  enumerate_from k (l1 ++ l2)
  = enumerate_from k l1 ++ enumerate_from (k + length l1) l2.
Proof.
  revert k. induction l1 as [|x l1 IH]; intros k.
  - simpl. by rewrite Nat.add_0_r.
  - rewrite <-app_comm_cons, !enumerate_from_cons, IH. simpl.
    by rewrite Nat.add_succ_r.
Qed.

Lemma enumerate_from_fst {A : Type} k (l : list A) :
  (enumerate_from k l).*1 = seq k (length l).
Proof. unfold enumerate_from. by rewrite fst_zip by (by rewrite length_seq). Qed.

Lemma mapM_enumerate_from_snd {A B : Type} (f : A → result B) k (l : list A) :
  mapM (λ it : nat * A, f it.2) (enumerate_from k l) = mapM f l.
Proof.
  revert k. induction l as [|x l IH]; intros k; [done|].
  by rewrite enumerate_from_cons, !mapM_result_cons, IH.
Qed.

Lemma mapM_result_app {A B : Type} (f : A → result B) (l1 l2 : list A) :
  mapM f (l1 ++ l2) = (k1 ← mapM f l1; k2 ← mapM f l2; Ok (k1 ++ k2)).
Proof.
  induction l1 as [|x l1 IH].
  - simpl. by destruct (mapM f l2).
  - rewrite <-app_comm_cons, !mapM_result_cons, IH.
    destruct (f x); simpl; [|done].
    destruct (mapM f l1); simpl; [|done]. by destruct (mapM f l2).
Qed.

Lemma filter_enumerate_from_shift {A : Type} (P : A → Prop)
    `{∀ x, Decision (P x)} n k (l : list A) :
  (filter (λ it, P it.2) (enumerate_from (n + k) l)).*1
  = (λ p, n + p) <$> (filter (λ it, P it.2) (enumerate_from k l)).*1.
Proof.
  revert k. induction l as [|x l IH]; intros k; [done|].
  rewrite !enumerate_from_cons, !filter_cons. simpl.
  rewrite <-Nat.add_succ_r. case_decide; rewrite ?fmap_cons, IH; done.
Qed.

Section sequence_properties.

Context {Pattern : Type}.
Variable re_match : Pattern → string → bool.

Implicit Types (self : WordTemplate Pattern).
Implicit Types (tokenArray : list (gmap string value)).

Lemma matchingTokens_mapM self tokenArray :
  matchingTokens re_match self tokenArray =
  (_ ← mapM (matches re_match self) tokenArray;
   Ok (filter (λ t, matches re_match self t = Ok true) tokenArray)).
Proof.
  rewrite matchingTokens_filter. unfold enumerate.
  rewrite (mapM_enumerate_from_snd (matches re_match self)).
  destruct (mapM _ tokenArray); simpl; [|done]. f_equal.
  by rewrite <-(filter_enumerate_from_snd
                 (λ t, matches re_match self t = Ok true) 0 tokenArray).
Qed.

Lemma matchingPositions_mapM self tokenArray :
  matchingPositions re_match self tokenArray =
  (_ ← mapM (matches re_match self) tokenArray;
   Ok (filter (λ it, matches re_match self it.2 = Ok true)
              (enumerate tokenArray)).*1).
Proof.
  rewrite matchingPositions_filter. unfold enumerate.
  by rewrite (mapM_enumerate_from_snd (matches re_match self)).
Qed.

(** X8.  The sequence queries distribute over concatenation: the matching
    tokens of [l1 + l2] are those of [l1] followed by those of [l2], and the
    matching positions are those of [l1] followed by those of [l2] shifted
    by [len(l1)]; the first exception raised in [l1], else in [l2], is the
    one raised on [l1 + l2]. *)
Theorem matching_app self (l1 l2 : list (gmap string value)) :
  matchingTokens re_match self (l1 ++ l2)
  = (ts1 ← matchingTokens re_match self l1;
     ts2 ← matchingTokens re_match self l2;
     Ok (ts1 ++ ts2)) ∧
  matchingPositions re_match self (l1 ++ l2)
  = (ps1 ← matchingPositions re_match self l1;
     ps2 ← matchingPositions re_match self l2;
     Ok (ps1 ++ ((λ p, length l1 + p) <$> ps2))).
Proof.
  rewrite !matchingTokens_mapM, !matchingPositions_mapM, mapM_result_app.
  destruct (mapM _ l1) as [bs1|]; simpl; [|done].
  destruct (mapM _ l2) as [bs2|]; simpl; [|done].
  split; f_equal; [apply filter_app|].
  unfold enumerate. rewrite enumerate_from_app, filter_app, fmap_app. f_equal.
  change (0 + length l1) with (length l1).
  rewrite <-(Nat.add_0_r (length l1)) at 1.
  exact (filter_enumerate_from_shift
           (λ t, matches re_match self t = Ok true)
           (H := λ t, decide (matches re_match self t = Ok true))
           (length l1) 0 l2).
Qed.

(** X9.  Filtering twice changes nothing: when [matchingTokens] returns a
    list, [matchingTokens] on that list returns it again, and
    [matchingPositions] on it returns every position. *)
Theorem matchingTokens_idempotent self tokenArray ts :
  matchingTokens re_match self tokenArray = Ok ts →
  matchingTokens re_match self ts = Ok ts ∧
  matchingPositions re_match self ts = Ok (seq 0 (length ts)).
Proof.
  rewrite matchingTokens_mapM.
  destruct (mapM _ tokenArray) as [bs|]; [|done]. simpl. intros [= <-].
  set (P := λ t, matches re_match self t = Ok true).
  assert (∀ t, t ∈ filter P tokenArray → matches re_match self t = Ok true)
    as Hts by (by intros t [? _]%list_elem_of_filter).
  rewrite matchingTokens_mapM, matchingPositions_mapM.
  rewrite (mapM_Ok_fmap (const true)) by done. simpl.
  split.
  - by rewrite (filter_all P) by done.
  - f_equal. rewrite filter_all.
    + apply enumerate_from_fst.
    + intros [i t] Hin. apply elem_of_enumerate in Hin. simpl.
      by eapply Hts, list_elem_of_lookup_2.
Qed.

(** *** Independence of the order of the rules *)

(** Whether a token-scoped rule passes, [False] standing in when the match
    raises. *)
Definition other_pass_b (tokenJson : gmap string value)
    (rule : string * Pattern) : bool :=
  match other_match re_match tokenJson rule with
  | Ok b => b
  | Raise _ => false
  end.

Lemma other_match_Raise tokenJson rule e :
  other_match re_match tokenJson rule = Raise e → e = TypeError.
Proof.
  unfold other_match. destruct (tokenJson !! rule.1) as [[]|]; by intros [= <-].
Qed.

(** The list [otherMatches]: a type error when some rule raises one, else
    one boolean per rule. *)
Lemma otherMatches_cases tokenJson (rules : list (string * Pattern)) :
  mapM (other_match re_match tokenJson) rules =
  if decide (Exists (λ rule, other_match re_match tokenJson rule
                             = Raise TypeError) rules)
  then Raise TypeError
  else Ok (other_pass_b tokenJson <$> rules).
Proof.
  induction rules as [|rule rules IH].
  - rewrite decide_False by (by intros ?%Exists_nil). done.
  - rewrite mapM_result_cons, IH, fmap_cons.
    destruct (other_match re_match tokenJson rule) as [b|e] eqn:Hrule; simpl.
    + assert (other_pass_b tokenJson rule = b) as Hb
        by (unfold other_pass_b; by rewrite Hrule).
      destruct (decide (Exists _ rules)) as [Hex|Hnex]; simpl.
      * by rewrite decide_True by (by right).
      * rewrite decide_False; [by rewrite Hb|].
        intros [?|?]%Exists_cons; [congruence|done].
    + apply other_match_Raise in Hrule as Heq. subst e.
      by rewrite decide_True by (by left).
Qed.

Lemma forallb_Permutation {X : Type} (f : X → bool) (l1 l2 : list X) :
  l1 ≡ₚ l2 → forallb f l1 = forallb f l2.
Proof.
  induction 1 as [|x l1 l2 _ IH|x y l|l1 l2 l3 _ IH1 _ IH2]; simpl.
  - done.
  - by rewrite IH.
  - by rewrite !andb_assoc, (andb_comm (f y)).
  - by rewrite IH1.
Qed.

(** The outcome of the token-scoped block does not depend on the order of
    the rules. *)
Lemma otherMatches_Permutation tokenJson (r1 r2 : list (string * Pattern)) :
  r1 ≡ₚ r2 →
  (ms ← mapM (other_match re_match tokenJson) r1;
   Ok (bool_decide (ms = []), all ms))
  = (ms ← mapM (other_match re_match tokenJson) r2;
     Ok (bool_decide (ms = []), all ms)).
Proof.
  intros Hperm. rewrite !otherMatches_cases.
  destruct (decide (Exists _ r1)) as [Hex|Hnex].
  - rewrite decide_True; [done|]. by rewrite <-Hperm.
  - rewrite decide_False by (by rewrite <-Hperm). simpl.
    rewrite !all_fmap, (forallb_Permutation _ _ _ Hperm). do 2 f_equal.
    apply bool_decide_ext. split; intros Hnil%fmap_nil_inv; subst.
    + destruct r2; [done|]. by apply Permutation_nil_cons in Hperm.
    + destruct r1; [done|]. symmetry in Hperm.
      by apply Permutation_nil_cons in Hperm.
Qed.

(** X10.  The order in which the rules sit in the two rule dicts does not
    matter: two templates whose rule dicts hold the same rules in any order
    give the same result of [matches], exception included, on every token
    whose ['analysis'], if present, is a list of analyses. *)
Theorem matches_rule_order self1 self2 (tokenJson : gmap string value) :
  option_Forall2 (≡ₚ) (analysisRules self1) (analysisRules self2) →
  option_Forall2 (≡ₚ) (otherRules self1) (otherRules self2) →
  (∀ v, tokenJson !! "analysis" = Some v → ∃ l, v = VList l) →
  matches re_match self1 tokenJson = matches re_match self2 tokenJson.
Proof.
  intros Ha Ho Hl.
  assert (match analysisRules self1 with
          | Some rules =>
              match tokenJson !! "analysis" with
              | None => Raise AssertionError
              | Some v =>
                  entries ← iterate v;
                  totalMatches ←
                    mapM (λ analysis,
                            ms ← rule_matches_break re_match rules analysis;
                            Ok (all ms)) entries;
                  Ok (any totalMatches)
              end
          | None => Ok false
          end =
          match analysisRules self2 with
          | Some rules =>
              match tokenJson !! "analysis" with
              | None => Raise AssertionError
              | Some v =>
                  entries ← iterate v;
                  totalMatches ←
                    mapM (λ analysis,
                            ms ← rule_matches_break re_match rules analysis;
                            Ok (all ms)) entries;
                  Ok (any totalMatches)
              end
          | None => Ok false
          end) as Hanalysis.
  { destruct Ha as [r1 r2 Hperm|]; [|done].
    destruct (tokenJson !! "analysis") as [v|] eqn:Hv; [|done].
    destruct (Hl v eq_refl) as [l ->]. simpl.
    rewrite !totalMatches_dicts. simpl. do 2 f_equal.
    apply list_fmap_ext. intros _ a _. by apply forallb_Permutation. }
  assert (is_None (analysisRules self1) = is_None (analysisRules self2))
    as Hnone by (by destruct Ha).
  unfold matches. rewrite Hanalysis, Hnone.
  destruct Ho as [r1 r2 Hperm|]; [|done].
  pose proof (otherMatches_Permutation tokenJson r1 r2 Hperm) as Hgate.
  destruct (mapM (other_match re_match tokenJson) r1) as [ms1|e1],
           (mapM (other_match re_match tokenJson) r2) as [ms2|e2];
    simpl in Hgate; try done.
  - injection Hgate as Hnil Hall. simpl. by rewrite Hnil, Hall.
  - simpl. congruence.
Qed.

End sequence_properties.

Lemma matchingTokens_idempotent_witness :
  matchingTokens lit_match template_ol [token_oli; token_plain]
    = Ok [token_oli; token_plain] ∧
  matchingPositions lit_match template_ol [token_oli; token_plain]
    = Ok (seq 0 (length [token_oli; token_plain])).
Proof.
  apply (matchingTokens_idempotent lit_match template_ol
           [token_oli; token_indexed; token_plain]).
  by vm_compute.
Defined.

Lemma matches_rule_order_witness :
  matches lit_match
    {| analysisRules := Some [("partofspeech", "S"); ("root", "ol")];
       otherRules := Some [("text", "ol")] |} token_oli
  = matches lit_match
      {| analysisRules := Some [("root", "ol"); ("partofspeech", "S")];
         otherRules := Some [("text", "ol")] |} token_oli.
Proof.
  apply matches_rule_order.
  - constructor. apply Permutation_swap.
  - by constructor.
  - intros v Hv. exists analyses_oli. vm_compute in Hv. by injection Hv as <-.
Defined.

(** ** The indexing functions write wordIDs only *)

Lemma only_wordID_changed_refl h : only_wordID_changed h h.
Proof. by split. Qed.

Lemma only_wordID_changed_trans h1 h2 h3 :
  only_wordID_changed h1 h2 → only_wordID_changed h2 h3 →
  only_wordID_changed h1 h3.
Proof.
  intros [Hd1 Hf1] [Hd2 Hf2]. split.
  - intros o. by rewrite Hd2, Hd1.
  - intros o k Hk. by rewrite Hf2, Hf1.
Qed.

(** Replacing a token by one that differs in its wordID only. *)
Lemma only_wordID_changed_insert h o d d' :
  h !! o = Some d →
  (∀ k, k ≠ "wordID" → d' !! k = d !! k) →
  only_wordID_changed h (<[o := d']> h).
Proof.
  intros Hd Hsame. split.
  - intros o'. rewrite lookup_insert_is_Some.
    split; [intros [<-|[_ ?]]; by eauto|].
    intros ?. destruct (decide (o = o')); by eauto.
  - intros o' k Hk. unfold field_of.
    destruct (decide (o = o')) as [<-|Hne].
    + rewrite lookup_insert_eq, Hd. simpl. by apply Hsame.
    + by rewrite lookup_insert_ne.
Qed.

Lemma for_each_M_rel {A S : Type}
    (R : relation (gmap nat (gmap string value)))
    `{!Reflexive R, !Transitive R} (body : S → A → M S) l acc h :
  (∀ acc x h, R h (body acc x h).2) →
  R h (for_each body acc l h).2.
Proof.
  intros Hbody. revert acc h. induction l as [|x l IH]; intros acc h; [done|].
  rewrite for_each_M_cons. specialize (Hbody acc x h).
  destruct (body acc x h) as [[acc'|e] h']; simpl in *; [|done].
  by etrans.
Qed.

#[local] Instance only_wordID_changed_reflexive : Reflexive only_wordID_changed.
Proof. intros h. apply only_wordID_changed_refl. Qed.
#[local] Instance only_wordID_changed_transitive :
  Transitive only_wordID_changed.
Proof. intros h1 h2 h3. apply only_wordID_changed_trans. Qed.

(** A step of [addWordIDs] leaves the store alone or sets one wordID. *)
Lemma addWordIDs_step_cases i o h :
  (addWordIDs_step i o h).2 = h ∨
  ∃ d, h !! o = Some d ∧
       (addWordIDs_step i o h).2 = <[o := <["wordID" := VInt (Z.of_nat i)]> d]> h.
Proof.
  unfold addWordIDs_step, contains, getitem, setitem, assert_.
  rewrite !M_bind_unfold.
  destruct (h !! o) as [d|] eqn:Hd; [|by left].
  destruct (d !! "wordID") as [w|] eqn:Hw.
  - rewrite bool_decide_eq_true_2 by done. rewrite ?M_bind_unfold, ?Hd, ?Hw.
    case_bool_decide; simpl; [|by left]. rewrite Hd. right. by exists d.
  - rewrite bool_decide_eq_false_2 by (by intros [? ?]). simpl.
    rewrite M_bind_unfold. simpl. rewrite Hd. right. by exists d.
Qed.

Lemma delitem_cases o k h :
  (delitem o k h).2 = h ∨
  ∃ d, h !! o = Some d ∧ (delitem o k h).2 = <[o := delete k d]> h.
Proof.
  unfold delitem. destruct (h !! o) as [d|] eqn:Hd; [|by left].
  destruct (d !! k); [|by left]. right. by exists d.
Qed.

(** X11.  [addWordIDs] touches nothing but wordIDs: whatever the sentence
    and the store, and whether it returns or fails, the store it leaves has
    the same token objects, each with its other fields as before. *)
Theorem addWordIDs_only_wordID (jsonSent : list nat) h :
  only_wordID_changed h (addWordIDs jsonSent h).2.
Proof.
  unfold addWordIDs. rewrite M_bind_unfold.
  set (body := λ (_ : unit) (it : nat * nat), addWordIDs_step it.1 it.2).
  assert (only_wordID_changed h (for_each body tt (enumerate jsonSent) h).2)
    as Hloop.
  { apply (for_each_M_rel only_wordID_changed).
    intros [] [i o] h0. unfold body. simpl.
    destruct (addWordIDs_step_cases i o h0) as [->|(d & Hd & ->)];
      [apply only_wordID_changed_refl|].
    apply (only_wordID_changed_insert _ _ d); [done|].
    intros k Hk. by rewrite lookup_insert_ne. }
  by destruct (for_each body tt (enumerate jsonSent) h) as [[[]|e] h'].
Qed.

(** X12.  [removeWordIDs] touches nothing but wordIDs: whatever the
    sentence and the store, and whether it returns or fails, the store it
    leaves has the same token objects, each with its other fields as
    before. *)
Theorem removeWordIDs_only_wordID (jsonSent : list nat) h :
  only_wordID_changed h (removeWordIDs jsonSent h).2.
Proof.
  unfold removeWordIDs. rewrite M_bind_unfold.
  set (body := λ (_ : unit) (it : nat * nat), delitem it.2 "wordID").
  assert (only_wordID_changed h (for_each body tt (enumerate jsonSent) h).2)
    as Hloop.
  { apply (for_each_M_rel only_wordID_changed).
    intros [] [i o] h0. unfold body. simpl.
    destruct (delitem_cases o "wordID" h0) as [->|(d & Hd & ->)];
      [apply only_wordID_changed_refl|].
    apply (only_wordID_changed_insert _ _ d); [done|].
    intros k Hk. by rewrite lookup_delete_ne. }
  by destruct (for_each body tt (enumerate jsonSent) h) as [[[]|e] h'].
Qed.

(** ** Loops over a concatenation, and read-only loops *)

Lemma for_each_M_app {A S : Type} (body : S → A → M S) (l1 l2 : list A) acc h :
  for_each body acc (l1 ++ l2) h =
  match for_each body acc l1 h with
  | (Ok acc', h') => for_each body acc' l2 h'
  | (Raise e, h') => (Raise e, h')
  end.
Proof.
  revert acc h. induction l1 as [|x l1 IH]; intros acc h; [done|].
  rewrite <-app_comm_cons, !for_each_M_cons.
  destruct (body acc x h) as [[acc'|e] h']; [apply IH|done].
Qed.

Lemma M_bind_readonly {A B : Type} (m : M A) (f : A → M B) h :
  (m h).2 = h → (∀ a, (f a h).2 = h) → ((m ≫= f) h).2 = h.
Proof.
  intros Hm Hf. rewrite M_bind_unfold.
  destruct (m h) as [[a|e] h']; simpl in *; subst; [apply Hf|done].
Qed.

Lemma for_each_M_readonly {A S : Type} (body : S → A → M S) l acc h :
  (∀ acc x h, (body acc x h).2 = h) → (for_each body acc l h).2 = h.
Proof.
  intros Hbody. symmetry. apply (for_each_M_rel eq). intros. by rewrite Hbody.
Qed.

Lemma mapM_M_readonly {A B : Type} (f : A → M B) (l : list A) h :
  (∀ x h, (f x h).2 = h) → (mapM f l h).2 = h.
Proof.
  intros Hf. induction l as [|x l IH]; [done|].
  change (mapM f (x :: l)) with (y ← f x; k ← mapM f l; mret (y :: k)).
  apply M_bind_readonly; [apply Hf|]. intros y.
  by apply M_bind_readonly.
Qed.

Lemma contains_readonly o k h : (contains o k h).2 = h.
Proof. unfold contains. by destruct (h !! o). Qed.

Lemma getitem_readonly o k h : (getitem o k h).2 = h.
Proof. unfold getitem. destruct (h !! o) as [d|]; [|done]. by destruct (d !! k). Qed.

Lemma assert_readonly c h : (assert_ c h).2 = h.
Proof. by destruct c. Qed.

(** ** addWordIDs on sentences that already carry wordIDs *)

(** X13.  Re-indexing is a no-op: on a sentence whose token at every
    position [i] already has [wordID == i], [addWordIDs] returns the
    sentence and leaves the store exactly as it was. *)
Theorem addWordIDs_indexed_noop h (jsonSent : list nat) :
  (∀ i o, jsonSent !! i = Some o →
          field_of h "wordID" o = Some (VInt (Z.of_nat i))) →
  addWordIDs jsonSent h = (Ok jsonSent, h).
Proof.
  intros Hidx. unfold addWordIDs, enumerate.
  by rewrite (M_bind_Ok _ _ _ _ _ (addWordIDs_loop_indexed jsonSent 0 h Hidx)).
Qed.

(** X14.  A wordID that disagrees with the position is rejected, after the
    tokens ahead of it were indexed: when the tokens at positions
    [0 .. k-1] are distinct objects without a wordID and the token at
    position [k] carries a wordID other than [k], [addWordIDs] fails with
    the assertion error, the tokens at positions [i < k] have received
    [wordID = i], and every other object is as it was. *)
Theorem addWordIDs_mismatch h (jsonSent : list nat) k o v :
  NoDup (take k jsonSent) →
  (∀ i p, i < k → jsonSent !! i = Some p → lacks h "wordID" p) →
  jsonSent !! k = Some o →
  field_of h "wordID" o = Some v →
  v ≠ VInt (Z.of_nat k) →
  ∃ h', addWordIDs jsonSent h = (Raise AssertionError, h') ∧
        (∀ i p, i < k → jsonSent !! i = Some p →
                ∃ d, h !! p = Some d ∧
                     h' !! p = Some (<["wordID" := VInt (Z.of_nat i)]> d)) ∧
        (∀ p, p ∉ take k jsonSent → h' !! p = h !! p).
Proof.
  intros Hnd Hpre Hk Hv Hne.
  destruct (addWordIDs_loop_fresh (take k jsonSent) 0 h Hnd)
    as (h' & Hrun & Hset & Hframe).
  { apply Forall_forall. intros p [i Hi]%list_elem_of_lookup.
    apply lookup_take_Some in Hi as [Hi Hlt]. by eapply Hpre. }
  assert (o ∉ take k jsonSent) as Hnin.
  { intros [i Hi]%list_elem_of_lookup.
    apply lookup_take_Some in Hi as [Hi Hlt].
    destruct (Hpre i o Hlt Hi) as (d & Hd & Hnone).
    apply field_of_Some in Hv as (d' & Hd' & Hsome). congruence. }
  assert (field_of h' "wordID" o = Some v) as Hv'
    by (unfold field_of in *; by rewrite (Hframe o Hnin)).
  exists h'. split; [|split; [|done]].
  - unfold addWordIDs, enumerate.
    rewrite <-(take_drop_middle jsonSent k o Hk) at 1.
    rewrite enumerate_from_app.
    erewrite (M_bind_Raise _ _ h); [done|].
    rewrite for_each_M_app, Hrun, enumerate_from_cons, for_each_M_cons.
    rewrite length_take_le by (apply lookup_lt_Some in Hk; lia). simpl.
    by rewrite (addWordIDs_step_mismatch _ _ _ _ Hv' Hne).
  - intros i p Hlt Hi. destruct (Hset i p) as (d & Hd & Hh').
    { apply lookup_take_Some. eauto. }
    by exists d.
Qed.

(** ** removeWordIDs: when it succeeds, and the round trips *)

Lemma removeWordIDs_loop_ok (l : list nat) k h :
  NoDup l →
  Forall (λ o, is_Some (field_of h "wordID" o)) l →
  ∃ h', for_each (λ (_ : unit) it, delitem it.2 "wordID") tt
                 (enumerate_from k l) h = (Ok tt, h') ∧
        (∀ o, o ∈ l →
              ∃ d, h !! o = Some d ∧ h' !! o = Some (delete "wordID" d)) ∧
        (∀ o, o ∉ l → h' !! o = h !! o).
Proof.
  revert k h. induction l as [|p l IH]; intros k h Hnd Hall.
  - exists h. split; [done|]. split; [by intros ? ?%elem_of_nil|done].
  - apply NoDup_cons in Hnd as [Hnin Hnd].
    apply Forall_cons in Hall as [[v (d & Hd & Hk)%field_of_Some] Hall].
    rewrite enumerate_from_cons, for_each_M_cons. simpl.
    rewrite (delitem_carries _ _ _ _ _ Hd Hk).
    destruct (IH (S k) (<[p := delete "wordID" d]> h) Hnd)
      as (h' & Hrun & Hdel & Hframe).
    { apply Forall_forall. intros q Hq. rewrite field_of_insert_ne.
      - by eapply Forall_forall in Hall.
      - by intros ->. }
    exists h'. split; [done|]. split.
    + intros q [->|Hq]%elem_of_cons.
      * exists d. split; [done|]. by rewrite (Hframe _ Hnin), lookup_insert_eq.
      * destruct (Hdel q Hq) as (d' & Hd' & Hh').
        rewrite lookup_insert_ne in Hd' by (by intros ->).
        by exists d'.
    + intros q [Hne Hq]%not_elem_of_cons.
      rewrite (Hframe q Hq). by apply lookup_insert_ne.
Qed.

Lemma removeWordIDs_loop_Ok_inv (l : list nat) k h h' :
  for_each (λ (_ : unit) it, delitem it.2 "wordID") tt
           (enumerate_from k l) h = (Ok tt, h') →
  NoDup l ∧ Forall (λ o, is_Some (field_of h "wordID" o)) l.
Proof.
  revert k h. induction l as [|p l IH]; intros k h.
  - intros _. split; constructor.
  - rewrite enumerate_from_cons, for_each_M_cons. simpl. unfold delitem at 1.
    destruct (h !! p) as [d|] eqn:Hd; [|done].
    destruct (d !! "wordID") as [v|] eqn:Hv; [|done].
    intros Hrun. destruct (IH _ _ Hrun) as [Hnd Hall].
    assert (p ∉ l) as Hnin.
    { intros Hin. eapply Forall_forall in Hall as [w Hw]; [|done].
      apply field_of_Some in Hw as (d' & Hd' & Hw).
      rewrite lookup_insert_eq in Hd'. injection Hd' as <-.
      by rewrite lookup_delete_eq in Hw. }
    split; [by constructor|]. apply Forall_cons. split.
    + exists v. apply field_of_Some. by exists d.
    + apply Forall_forall. intros q Hq.
      eapply Forall_forall in Hall; [|done].
      rewrite field_of_insert_ne in Hall; [done|]. by intros ->.
Qed.

(** X15.  When [removeWordIDs] succeeds: it returns exactly when the tokens
    of the sentence are pairwise distinct objects that all carry a wordID;
    it then returns the sentence, every token of the sentence has lost its
    wordID and nothing else, and every other object is as it was. *)
Theorem removeWordIDs_succeeds_iff h (jsonSent : list nat) :
  ((∃ r h', removeWordIDs jsonSent h = (Ok r, h')) ↔
   NoDup jsonSent ∧
   Forall (λ o, is_Some (field_of h "wordID" o)) jsonSent) ∧
  (∀ r h', removeWordIDs jsonSent h = (Ok r, h') →
           r = jsonSent ∧
           (∀ o, o ∈ jsonSent →
                 ∃ d, h !! o = Some d ∧ h' !! o = Some (delete "wordID" d)) ∧
           (∀ o, o ∉ jsonSent → h' !! o = h !! o)).
Proof.
  unfold removeWordIDs, enumerate. split; [split|].
  - intros (r & h' & Hrun). rewrite M_bind_unfold in Hrun.
    destruct (for_each (M:=M) _ tt (enumerate_from 0 jsonSent) h)
      as [[[]|e] h1] eqn:Hloop; [|done].
    by eapply removeWordIDs_loop_Ok_inv.
  - intros [Hnd Hall].
    destruct (removeWordIDs_loop_ok jsonSent 0 h Hnd Hall) as (h' & Hrun & _).
    exists jsonSent, h'. by rewrite (M_bind_Ok _ _ _ _ _ Hrun).
  - intros r h' Hrun. rewrite M_bind_unfold in Hrun.
    destruct (for_each (M:=M) _ tt (enumerate_from 0 jsonSent) h)
      as [[[]|e] h1] eqn:Hloop; [|done].
    injection Hrun as <- <-.
    destruct (removeWordIDs_loop_Ok_inv _ _ _ _ Hloop) as [Hnd Hall].
    destruct (removeWordIDs_loop_ok jsonSent 0 h Hnd Hall)
      as (h' & Hrun & Hdel & Hframe).
    rewrite Hloop in Hrun. injection Hrun as <-. done.
Qed.

(** X16.  Indexing then clearing is the identity: on a sentence of pairwise
    distinct token objects without wordIDs, [addWordIDs] followed by
    [removeWordIDs] returns the sentence both times and ends in the initial
    store. *)
Theorem addWordIDs_removeWordIDs h (jsonSent : list nat) :
  NoDup jsonSent →
  Forall (lacks h "wordID") jsonSent →
  ∃ h1, addWordIDs jsonSent h = (Ok jsonSent, h1) ∧
        removeWordIDs jsonSent h1 = (Ok jsonSent, h).
Proof.
  intros Hnd Hall.
  destruct (addWordIDs_loop_fresh jsonSent 0 h Hnd Hall)
    as (h1 & Hrun & Hset & Hframe).
  destruct (removeWordIDs_loop_ok jsonSent 0 h1 Hnd)
    as (h2 & Hrun2 & Hdel & Hframe2).
  { apply Forall_forall. intros o [i Hi]%list_elem_of_lookup.
    destruct (Hset i o Hi) as (d & _ & Hh1). eexists.
    apply field_of_Some. eexists. split; [done|]. apply lookup_insert_eq. }
  assert (h2 = h) as ->.
  { apply map_eq. intros o. destruct (decide (o ∈ jsonSent)) as [Hin|Hnin].
    - apply list_elem_of_lookup in Hin as Hi. destruct Hi as [i Hi].
      destruct (Hset i o Hi) as (d & Hd & Hh1).
      destruct (Hdel o Hin) as (d1 & Hd1 & Hh2).
      rewrite Hh2, Hd. f_equal. rewrite Hh1 in Hd1. injection Hd1 as <-.
      apply delete_insert_id.
      eapply Forall_forall in Hall as (d' & Hd' & Hnone); [|done]. congruence.
    - by rewrite (Hframe2 o Hnin), (Hframe o Hnin). }
  exists h1. unfold addWordIDs, removeWordIDs, enumerate.
  by rewrite (M_bind_Ok _ _ _ _ _ Hrun), (M_bind_Ok _ _ _ _ _ Hrun2).
Qed.

(** X17.  Clearing then indexing is the identity on an indexed sentence:
    when the token at every position [i] has [wordID == i],
    [removeWordIDs] followed by [addWordIDs] returns the sentence both
    times and ends in the initial store. *)
Theorem removeWordIDs_addWordIDs h (jsonSent : list nat) :
  (∀ i o, jsonSent !! i = Some o →
          field_of h "wordID" o = Some (VInt (Z.of_nat i))) →
  ∃ h1, removeWordIDs jsonSent h = (Ok jsonSent, h1) ∧
        addWordIDs jsonSent h1 = (Ok jsonSent, h).
Proof.
  intros Hidx.
  assert (NoDup jsonSent) as Hnd.
  { apply NoDup_alt. intros i j o Hi Hj.
    pose proof (Hidx i o Hi) as Hwi. rewrite (Hidx j o Hj) in Hwi.
    injection Hwi as Hij. lia. }
  destruct (removeWordIDs_loop_ok jsonSent 0 h Hnd)
    as (h1 & Hrun & Hdel & Hframe).
  { apply Forall_forall. intros o [i Hi]%list_elem_of_lookup.
    rewrite (Hidx i o Hi). by eexists. }
  destruct (addWordIDs_loop_fresh jsonSent 0 h1 Hnd)
    as (h2 & Hrun2 & Hset & Hframe2).
  { apply Forall_forall. intros o Ho.
    destruct (Hdel o Ho) as (d & _ & Hh1). exists (delete "wordID" d).
    split; [done|]. apply lookup_delete_eq. }
  assert (h2 = h) as ->.
  { apply map_eq. intros o. destruct (decide (o ∈ jsonSent)) as [Hin|Hnin].
    - apply list_elem_of_lookup in Hin as Hi. destruct Hi as [i Hi].
      destruct (Hdel o Hin) as (d & Hd & Hh1).
      destruct (Hset i o Hi) as (d1 & Hd1 & Hh2).
      rewrite Hh2, Hd. f_equal. rewrite Hh1 in Hd1. injection Hd1 as <-.
      apply insert_delete_id.
      pose proof (Hidx i o Hi) as (d' & Hd' & Hw)%field_of_Some.
      change (0 + i) with i. congruence.
    - by rewrite (Hframe2 o Hnin), (Hframe o Hnin). }
  exists h1. unfold addWordIDs, removeWordIDs, enumerate.
  by rewrite (M_bind_Ok _ _ _ _ _ Hrun), (M_bind_Ok _ _ _ _ _ Hrun2).
Qed.

(** ** getWordIDrange: slices, failures, and what it leaves alone *)

(** Filtering on a property that holds at exactly the positions [a <= . < b]
    of a list (counted from [k]) cuts that slice out. *)
Lemma filter_by_position {A : Type} (P : A → Prop) `{!∀ x, Decision (P x)}
    (l : list A) k a b :
  (∀ i x, l !! i = Some x → P x ↔ a ≤ k + i < b) →
  filter P l = drop (a - k) (take (b - k) l).
Proof.
  revert k. induction l as [|x l IH]; intros k Hpos.
  - by rewrite take_nil, drop_nil.
  - assert (filter P l = drop (a - S k) (take (b - S k) l)) as Hrest.
    { apply IH. intros i y Hi. rewrite (Hpos (S i) y Hi). lia. }
    pose proof (Hpos 0 x eq_refl) as Hx. rewrite Nat.add_0_r in Hx.
    rewrite filter_cons, Hrest.
    destruct (decide (P x)) as [HP|HnP].
    + apply Hx in HP.
      replace (a - k) with 0 by lia. replace (b - k) with (S (b - S k)) by lia.
      replace (a - S k) with 0 by lia. done.
    + assert (¬ a ≤ k < b) as Hout by (by rewrite <-Hx).
      destruct (decide (k < b)) as [Hlt|Hge].
      * replace (a - k) with (S (a - S k)) by lia.
        replace (b - k) with (S (b - S k)) by lia. done.
      * replace (b - k) with 0 by lia. replace (b - S k) with 0 by lia.
        by rewrite !take_0, !drop_nil.
Qed.

Lemma getWordIDrange_slice_indexed h (jsonSent : list nat) (a b : nat) :
  (∀ i o, jsonSent !! i = Some o →
          field_of h "wordID" o = Some (VInt (Z.of_nat i))) →
  getWordIDrange (Z.of_nat a) (Z.of_nat b) jsonSent h
  = (Ok (drop a (take b jsonSent)), h).
Proof.
  intros Hidx. rewrite getWordIDrange_filter.
  - do 2 f_equal.
    rewrite (filter_by_position _ jsonSent 0 a b), !Nat.sub_0_r; [done|].
    intros i o Hi. unfold wordID_in. rewrite (Hidx i o Hi). lia.
  - apply Forall_forall. intros o [i Hi]%list_elem_of_lookup.
    rewrite (Hidx i o Hi). by eexists.
Qed.

(** X18.  On an indexed sentence [getWordIDrange] is slicing: when the
    token at every position [i] has [wordID == i], [getWordIDrange a b]
    returns the slice [jsonSent[a:b]] for all natural numbers [a], [b], and
    leaves the store as it was. *)
Theorem getWordIDrange_slice h (jsonSent : list nat) :
  (∀ i o, jsonSent !! i = Some o →
          field_of h "wordID" o = Some (VInt (Z.of_nat i))) →
  ∀ a b : nat,
    getWordIDrange (Z.of_nat a) (Z.of_nat b) jsonSent h
    = (Ok (drop a (take b jsonSent)), h).
Proof. intros Hidx a b. by apply getWordIDrange_slice_indexed. Qed.

(** X19.  Indexing makes ranges slices: on a sentence of pairwise distinct
    token objects without wordIDs, after [addWordIDs] every
    [getWordIDrange a b] returns the slice [jsonSent[a:b]]. *)
Theorem addWordIDs_getWordIDrange h (jsonSent : list nat) :
  NoDup jsonSent →
  Forall (lacks h "wordID") jsonSent →
  ∃ h1, addWordIDs jsonSent h = (Ok jsonSent, h1) ∧
        ∀ a b : nat,
          getWordIDrange (Z.of_nat a) (Z.of_nat b) jsonSent h1
          = (Ok (drop a (take b jsonSent)), h1).
Proof.
  intros Hnd Hall.
  destruct (addWordIDs_loop_fresh jsonSent 0 h Hnd Hall)
    as (h1 & Hrun & Hset & _).
  exists h1. split.
  - unfold addWordIDs, enumerate. by rewrite (M_bind_Ok _ _ _ _ _ Hrun).
  - intros a b. apply getWordIDrange_slice_indexed. intros i o Hi.
    destruct (Hset i o Hi) as (d & _ & Hh1).
    apply field_of_Some. eexists. split; [done|]. apply lookup_insert_eq.
Qed.

(** X20.  A token without a wordID stops [getWordIDrange]: when the tokens
    ahead of position [k] carry integer wordIDs and the token at position
    [k] has none, the call fails with the assertion error, whatever the
    bounds and whatever follows, and the store is as it was. *)
Theorem getWordIDrange_missing_wordID h (jsonSent : list nat) a b k o :
  (∀ i p, i < k → jsonSent !! i = Some p →
          ∃ n, field_of h "wordID" p = Some (VInt n)) →
  jsonSent !! k = Some o →
  lacks h "wordID" o →
  getWordIDrange a b jsonSent h = (Raise AssertionError, h).
Proof.
  intros Hpre Hk Ho. unfold getWordIDrange, enumerate.
  rewrite <-(take_drop_middle jsonSent k o Hk), enumerate_from_app.
  rewrite for_each_M_app.
  rewrite (for_each_M_pure _
    (λ tokens it, if decide (wordID_in a b h it.2) then tokens ++ [it.2]
                  else tokens)).
  - rewrite enumerate_from_cons, for_each_M_cons. simpl.
    by rewrite (M_bind_Ok _ _ _ _ _ (contains_lacks _ _ _ Ho)).
  - intros tokens [i p] Hin. apply elem_of_enumerate in Hin.
    apply lookup_take_Some in Hin as [Hi Hlt].
    destruct (Hpre i p Hlt Hi) as [n Hn].
    by eapply getWordIDrange_body.
Qed.

(** X21.  [getWordIDrange] never writes: whatever the bounds, the sentence
    and the store, and whether it returns or fails, the store it leaves is
    the store it was given. *)
Theorem getWordIDrange_readonly a b (jsonSent : list nat) h :
  (getWordIDrange a b jsonSent h).2 = h.
Proof.
  unfold getWordIDrange. apply for_each_M_readonly.
  intros tokens it h0.
  apply M_bind_readonly; [apply contains_readonly|]. intros has.
  apply M_bind_readonly; [apply assert_readonly|]. intros _.
  apply M_bind_readonly; [apply getitem_readonly|]. intros w.
  apply M_bind_readonly; [by destruct w|]. by intros [].
Qed.

(** ** getClausesByClauseIDs: failures, and what it leaves alone *)

(** X22.  [getClausesByClauseIDs] never writes: whatever the sentence and
    the store, and whether it returns or fails, the store it leaves is the
    store it was given. *)
Theorem getClausesByClauseIDs_readonly (jsonSent : list nat) h :
  (getClausesByClauseIDs jsonSent h).2 = h.
Proof.
  unfold getClausesByClauseIDs.
  apply M_bind_readonly.
  { apply for_each_M_readonly. intros [] tokenStruct h0.
    apply M_bind_readonly; [apply contains_readonly|].
    intros has. apply assert_readonly. }
  intros _. apply M_bind_readonly.
  { apply mapM_M_readonly. intros. apply getitem_readonly. }
  intros clauseIDs. apply for_each_M_readonly. intros clauses it h0.
  apply M_bind_readonly; [apply getitem_readonly|]. intros clauseId.
  apply M_bind_readonly; [by destruct (hashable clauseId)|]. done.
Qed.

(** The check loop of [getClausesByClauseIDs] passes over tokens that have
    a clauseID. *)
Lemma clauseID_check_pass (l : list nat) h :
  Forall (λ o, is_Some (field_of h "clauseID" o)) l →
  for_each (λ (_ : unit) tokenStruct,
              has ← contains tokenStruct "clauseID"; assert_ has) tt l h
  = (Ok tt, h).
Proof.
  intros Hall. rewrite (for_each_M_pure _ (λ _ _, tt)).
  - by destruct (foldl _ _ _).
  - intros [] o Ho. eapply Forall_forall in Hall as [c Hc]; [|done].
    by rewrite (M_bind_Ok _ _ _ _ _ (contains_carries _ _ _ _ Hc)).
Qed.

(** X23.  A token without a clauseID is found before any grouping: when the
    tokens ahead of position [k] have a clauseID of any kind and the token
    at position [k] has none, [getClausesByClauseIDs] fails with the
    assertion error and the store is as it was. *)
Theorem getClausesByClauseIDs_missing_clauseID h (jsonSent : list nat) k o :
  (∀ i p, i < k → jsonSent !! i = Some p →
          is_Some (field_of h "clauseID" p)) →
  jsonSent !! k = Some o →
  lacks h "clauseID" o →
  getClausesByClauseIDs jsonSent h = (Raise AssertionError, h).
Proof.
  intros Hpre Hk Ho. unfold getClausesByClauseIDs.
  erewrite (M_bind_Raise _ _ h); [done|].
  rewrite <-(take_drop_middle jsonSent k o Hk), for_each_M_app.
  rewrite clauseID_check_pass.
  - rewrite for_each_M_cons.
    by rewrite (M_bind_Ok _ _ _ _ _ (contains_lacks _ _ _ Ho)).
  - apply Forall_forall. intros p [i Hi]%list_elem_of_lookup.
    apply lookup_take_Some in Hi as [Hi Hlt]. by eapply Hpre.
Qed.

(** X24.  A clauseID that cannot be a dict key: when every token has a
    clauseID, those ahead of position [k] hashable and the one at position
    [k] a list, [getClausesByClauseIDs] fails with the type error and the
    store is as it was. *)
Theorem getClausesByClauseIDs_unhashable h (jsonSent : list nat) k o c :
  Forall (λ p, is_Some (field_of h "clauseID" p)) jsonSent →
  (∀ i p, i < k → jsonSent !! i = Some p →
          ∃ c', field_of h "clauseID" p = Some c' ∧ hashable c' = true) →
  jsonSent !! k = Some o →
  field_of h "clauseID" o = Some c →
  hashable c = false →
  getClausesByClauseIDs jsonSent h = (Raise TypeError, h).
Proof.
  intros Hall Hpre Hk Hc Hhash. unfold getClausesByClauseIDs.
  set (key := λ p, default (VInt 0) (field_of h "clauseID" p)).
  assert (∀ p, p ∈ jsonSent → field_of h "clauseID" p = Some (key p)) as Hkey.
  { intros p Hp. eapply Forall_forall in Hall as [c' Hc']; [|done].
    unfold key. by rewrite Hc'. }
  rewrite (M_bind_Ok _ _ _ _ _ (clauseID_check_pass _ _ Hall)).
  erewrite (M_bind_Ok _ _ h _ h); cycle 1.
  { apply (mapM_M_pure _ key). intros p Hp. by apply getitem_carries, Hkey. }
  unfold enumerate.
  rewrite <-(take_drop_middle jsonSent k o Hk), enumerate_from_app.
  rewrite for_each_M_app.
  rewrite (for_each_M_pure _
    (λ clauses it, clauses_append clauses (key it.2) it.2)).
  - rewrite enumerate_from_cons, for_each_M_cons. simpl.
    rewrite (M_bind_Ok _ _ _ _ _ (getitem_carries _ _ _ _ Hc)).
    by rewrite Hhash.
  - intros clauses [i p] Hin. apply elem_of_enumerate in Hin.
    apply lookup_take_Some in Hin as [Hi Hlt].
    destruct (Hpre i p Hlt Hi) as (c' & Hc' & Hh'). simpl.
    rewrite (M_bind_Ok _ _ _ _ _ (getitem_carries _ _ _ _ Hc')).
    rewrite Hh'. unfold key. by rewrite Hc'.
Qed.

(** ** The further laws on the example stores *)

(** A property of the tokens at the positions below a bound of a literal
    sentence, position by position. *)
Ltac each_position tac :=
  let i := fresh "i" in let p := fresh "p" in
  let Hlt := fresh "Hlt" in let Hi := fresh "Hi" in
  intros i p Hlt Hi;
  repeat (destruct i as [|i]; [injection Hi as <-; tac|]);
  first [lia | by destruct i].

Lemma addWordIDs_indexed_noop_witness :
  addWordIDs [0; 1; 2] store_indexed = (Ok [0; 1; 2], store_indexed).
Proof.
  apply (addWordIDs_indexed_noop store_indexed [0; 1; 2]).
  intros [|[|[|i]]] o Hi; [injection Hi as <-; reflexivity..|done].
Defined.

Lemma addWordIDs_mismatch_witness :
  ∃ h', addWordIDs [2; 1; 0] store_partial = (Raise AssertionError, h') ∧
        (∀ i p, i < 1 → [2; 1; 0] !! i = Some p →
                ∃ d, store_partial !! p = Some d ∧
                     h' !! p = Some (<["wordID" := VInt (Z.of_nat i)]> d)) ∧
        (∀ p, p ∉ take 1 [2; 1; 0] → h' !! p = store_partial !! p).
Proof.
  apply (addWordIDs_mismatch store_partial [2; 1; 0] 1 1 (VInt 2)).
  - apply (bool_decide_unpack _). by vm_compute.
  - each_position ltac:(eexists; split; reflexivity).
  - reflexivity.
  - reflexivity.
  - discriminate.
Defined.

Lemma addWordIDs_removeWordIDs_witness :
  ∃ h1, addWordIDs [0; 1; 2] store_fresh = (Ok [0; 1; 2], h1) ∧
        removeWordIDs [0; 1; 2] h1 = (Ok [0; 1; 2], store_fresh).
Proof.
  apply (addWordIDs_removeWordIDs store_fresh [0; 1; 2]).
  - apply (bool_decide_unpack _). by vm_compute.
  - each_token ltac:(eexists; split; reflexivity).
Defined.

Lemma removeWordIDs_addWordIDs_witness :
  ∃ h1, removeWordIDs [0; 1; 2] store_indexed = (Ok [0; 1; 2], h1) ∧
        addWordIDs [0; 1; 2] h1 = (Ok [0; 1; 2], store_indexed).
Proof.
  apply (removeWordIDs_addWordIDs store_indexed [0; 1; 2]).
  intros [|[|[|i]]] o Hi; [injection Hi as <-; reflexivity..|done].
Defined.

Lemma getWordIDrange_slice_witness :
  getWordIDrange (Z.of_nat 1) (Z.of_nat 3) [0; 1; 2] store_indexed
  = (Ok (drop 1 (take 3 [0; 1; 2])), store_indexed).
Proof.
  apply (getWordIDrange_slice store_indexed [0; 1; 2]).
  intros [|[|[|i]]] o Hi; [injection Hi as <-; reflexivity..|done].
Defined.

Lemma addWordIDs_getWordIDrange_witness :
  ∃ h1, addWordIDs [0; 1; 2] store_fresh = (Ok [0; 1; 2], h1) ∧
        ∀ a b : nat,
          getWordIDrange (Z.of_nat a) (Z.of_nat b) [0; 1; 2] h1
          = (Ok (drop a (take b [0; 1; 2])), h1).
Proof.
  apply (addWordIDs_getWordIDrange store_fresh [0; 1; 2]).
  - apply (bool_decide_unpack _). by vm_compute.
  - each_token ltac:(eexists; split; reflexivity).
Defined.

Lemma getWordIDrange_missing_wordID_witness :
  getWordIDrange 0 3 [0; 1; 2] store_partial
  = (Raise AssertionError, store_partial).
Proof.
  apply (getWordIDrange_missing_wordID store_partial [0; 1; 2] 0 3 2 2).
  - each_position ltac:(eexists; reflexivity).
  - reflexivity.
  - eexists. split; reflexivity.
Defined.

Lemma getClausesByClauseIDs_missing_clauseID_witness :
  getClausesByClauseIDs [2; 0; 1] store_clauses
  = (Raise AssertionError, store_clauses).
Proof.
  apply (getClausesByClauseIDs_missing_clauseID store_clauses [2; 0; 1] 2 1).
  - each_position ltac:(eexists; reflexivity).
  - reflexivity.
  - eexists. split; reflexivity.
Defined.

Lemma getClausesByClauseIDs_unhashable_witness :
  getClausesByClauseIDs [0; 2] store_clauses = (Raise TypeError, store_clauses).
Proof.
  apply (getClausesByClauseIDs_unhashable store_clauses [0; 2] 1 2 (VList [])).
  - each_token ltac:(eexists; reflexivity).
  - each_position ltac:(eexists; split; reflexivity).
  - reflexivity.
  - reflexivity.
  - reflexivity.
Defined.
